(** * The block-stacking game of [script.js]

    A shallow embedding of the game-state update code of [script.js]
    (block spawning, placement with trimming, motion between the bounds,
    score and difficulty, the frame loop and the input handler), followed by
    the properties stated about it.

    Conventions of the embedding.
    - JavaScript numbers are read as exact rationals ([Q]) in the state of
      the game: the rounding of binary64 arithmetic, [NaN] and the
      infinities are not represented there, and what is stated of a number
      is the expression that the code assigns, or an order between numbers.
      Equalities that need arithmetic are stated with [==] ([Qeq]).
      What depends on the rounding is stated in the module [Binary64],
      which has the arithmetic of the same functions on binary64 values.
    - Objects that the code mutates through several references (the blocks,
      which are reachable from [gameState.stack] and from
      [gameState.currentBlock]) live in a store, [blocks], and are named by
      their index in it; [stack] and [currentBlock] hold such references.
    - A property access on [undefined] or [null] raises [TypeError]; the
      functions are written in a state monad with that one exception.
    - The Three.js scene is represented by what the game logic reads back
      from it: the mesh of each block (kept inside the block), the list of
      debris meshes, and the height of the camera.  Colours, lights and
      rendering are left out.  The falling animation of a debris piece only
      changes its height and rotation and finally removes it; it is a
      closure of its own ([fallingFrame], [fall]) and not part of the state.
    - The host is an event loop: it runs the requested frame callback, the
      input handler and the pending spawn timer, one at a time ([step],
      [run]). *)

From Stdlib Require Import QArith Qabs Qminmax Qpower Lqa ZArith Lia String.
From Stdlib Require Import Floats.PrimFloat Floats.SpecFloat Floats.FloatOps
  Floats.FloatAxioms.
From stdpp Require Import base option list.

Local Open Scope Q_scope.

(** ** Configuration ([CONFIG]) *)

Module CONFIG.
Definition BOX_SIZE : Q := 3.
Definition BOX_HEIGHT : Q := 0.5.
Definition INITIAL_SPEED : Q := 0.08.
Definition SPEED_INCREASE : Q := 0.002.
Definition CAMERA_OFFSET : Q := 4.
Definition BOUNDS : Q := 5.
Module ANIMATION.
Definition DROP_SPEED : Q := 0.4.
Definition BLOCK_PLACE_DELAY : Q := 100.
Definition CAMERA_SPEED : Q := 0.1.
End ANIMATION.
End CONFIG.

(** ** Comparisons of numbers as booleans *)

(** [a < b] *)
Definition Qltb (a b : Q) : bool :=
  match a ?= b with Lt => true | _ => false end.

(** [a >= b] *)
Definition Qgeb (a b : Q) : bool := negb (Qltb a b).

(** ** Data *)

(** A [THREE.Mesh]: the size of its box geometry along x and z, its position
    and its scale along x. *)
Record Mesh : Type := mkMesh {
  geometry_width : Q;
  geometry_depth : Q;
  position_x : Q;
  position_y : Q;
  scale_x : Q
}.

(** The object [{ mesh, width, depth, moving }] built by [addBlock]. *)
Record Block : Type := mkBlock {
  mesh : Mesh;
  width : Q;
  depth : Q;
  moving : bool
}.

(** A reference to a block object: its index in the store. *)
Abbreviation ref := nat (only parsing).

Inductive Sound : Type := snd_drop | snd_fail.

(** The text of a DOM element, as far as the game writes it. *)
Inductive Text : Type :=
| Markup                (* whatever the page contained *)
| Bloques (n : Z)       (* `Bloques: ${n}` *)
| Lograste (n : Z).     (* `Lograste ${n} bloques` *)

(** [gameState], together with the parts of the host that the code acts on.
    An element of the page is [None] when [document.getElementById] finds
    nothing. *)
Record GameState : Type := mkGameState {
  (* the store of block objects *)
  blocks : list Block;
  (* scene: the debris meshes, newest first; camera.position.y *)
  drops : list Mesh;
  camera : option Q;
  (* gameState *)
  stack : list ref;
  currentBlock : option ref;
  direction : Q;
  gameEnded : bool;
  isPlacingBlock : bool;
  score : Z;
  speed : Q;
  animationId : option positive;
  lastTime : Q;
  (* host: timers, frame requests, audio, page *)
  pendingSpawns : nat;
  rafPending : option positive;
  rafNext : positive;
  soundLog : list Sound;
  scoreEl : option Text;
  gameOverEl : option bool;
  finalScoreEl : option Text
}.

(** Assignment to one field. *)
Definition set_blocks v s :=
  mkGameState v (drops s) (camera s) (stack s) (currentBlock s) (direction s)
    (gameEnded s) (isPlacingBlock s) (score s) (speed s) (animationId s)
    (lastTime s) (pendingSpawns s) (rafPending s) (rafNext s) (soundLog s)
    (scoreEl s) (gameOverEl s) (finalScoreEl s).
Definition set_drops v s :=
  mkGameState (blocks s) v (camera s) (stack s) (currentBlock s)
    (direction s) (gameEnded s) (isPlacingBlock s) (score s) (speed s)
    (animationId s) (lastTime s) (pendingSpawns s) (rafPending s) (rafNext s)
    (soundLog s) (scoreEl s) (gameOverEl s) (finalScoreEl s).
Definition set_camera v s :=
  mkGameState (blocks s) (drops s) v (stack s) (currentBlock s) (direction s)
    (gameEnded s) (isPlacingBlock s) (score s) (speed s) (animationId s)
    (lastTime s) (pendingSpawns s) (rafPending s) (rafNext s) (soundLog s)
    (scoreEl s) (gameOverEl s) (finalScoreEl s).
Definition set_stack v s :=
  mkGameState (blocks s) (drops s) (camera s) v (currentBlock s)
    (direction s) (gameEnded s) (isPlacingBlock s) (score s) (speed s)
    (animationId s) (lastTime s) (pendingSpawns s) (rafPending s) (rafNext s)
    (soundLog s) (scoreEl s) (gameOverEl s) (finalScoreEl s).
Definition set_currentBlock v s :=
  mkGameState (blocks s) (drops s) (camera s) (stack s) v (direction s)
    (gameEnded s) (isPlacingBlock s) (score s) (speed s) (animationId s)
    (lastTime s) (pendingSpawns s) (rafPending s) (rafNext s) (soundLog s)
    (scoreEl s) (gameOverEl s) (finalScoreEl s).
Definition set_direction v s :=
  mkGameState (blocks s) (drops s) (camera s) (stack s) (currentBlock s) v
    (gameEnded s) (isPlacingBlock s) (score s) (speed s) (animationId s)
    (lastTime s) (pendingSpawns s) (rafPending s) (rafNext s) (soundLog s)
    (scoreEl s) (gameOverEl s) (finalScoreEl s).
Definition set_gameEnded v s :=
  mkGameState (blocks s) (drops s) (camera s) (stack s) (currentBlock s)
    (direction s) v (isPlacingBlock s) (score s) (speed s) (animationId s)
    (lastTime s) (pendingSpawns s) (rafPending s) (rafNext s) (soundLog s)
    (scoreEl s) (gameOverEl s) (finalScoreEl s).
Definition set_isPlacingBlock v s :=
  mkGameState (blocks s) (drops s) (camera s) (stack s) (currentBlock s)
    (direction s) (gameEnded s) v (score s) (speed s) (animationId s)
    (lastTime s) (pendingSpawns s) (rafPending s) (rafNext s) (soundLog s)
    (scoreEl s) (gameOverEl s) (finalScoreEl s).
Definition set_score v s :=
  mkGameState (blocks s) (drops s) (camera s) (stack s) (currentBlock s)
    (direction s) (gameEnded s) (isPlacingBlock s) v (speed s)
    (animationId s) (lastTime s) (pendingSpawns s) (rafPending s) (rafNext s)
    (soundLog s) (scoreEl s) (gameOverEl s) (finalScoreEl s).
Definition set_speed v s :=
  mkGameState (blocks s) (drops s) (camera s) (stack s) (currentBlock s)
    (direction s) (gameEnded s) (isPlacingBlock s) (score s) v
    (animationId s) (lastTime s) (pendingSpawns s) (rafPending s) (rafNext s)
    (soundLog s) (scoreEl s) (gameOverEl s) (finalScoreEl s).
Definition set_animationId v s :=
  mkGameState (blocks s) (drops s) (camera s) (stack s) (currentBlock s)
    (direction s) (gameEnded s) (isPlacingBlock s) (score s) (speed s) v
    (lastTime s) (pendingSpawns s) (rafPending s) (rafNext s) (soundLog s)
    (scoreEl s) (gameOverEl s) (finalScoreEl s).
Definition set_lastTime v s :=
  mkGameState (blocks s) (drops s) (camera s) (stack s) (currentBlock s)
    (direction s) (gameEnded s) (isPlacingBlock s) (score s) (speed s)
    (animationId s) v (pendingSpawns s) (rafPending s) (rafNext s)
    (soundLog s) (scoreEl s) (gameOverEl s) (finalScoreEl s).
Definition set_pendingSpawns v s :=
  mkGameState (blocks s) (drops s) (camera s) (stack s) (currentBlock s)
    (direction s) (gameEnded s) (isPlacingBlock s) (score s) (speed s)
    (animationId s) (lastTime s) v (rafPending s) (rafNext s) (soundLog s)
    (scoreEl s) (gameOverEl s) (finalScoreEl s).
Definition set_rafPending v s :=
  mkGameState (blocks s) (drops s) (camera s) (stack s) (currentBlock s)
    (direction s) (gameEnded s) (isPlacingBlock s) (score s) (speed s)
    (animationId s) (lastTime s) (pendingSpawns s) v (rafNext s) (soundLog s)
    (scoreEl s) (gameOverEl s) (finalScoreEl s).
Definition set_rafNext v s :=
  mkGameState (blocks s) (drops s) (camera s) (stack s) (currentBlock s)
    (direction s) (gameEnded s) (isPlacingBlock s) (score s) (speed s)
    (animationId s) (lastTime s) (pendingSpawns s) (rafPending s) v
    (soundLog s) (scoreEl s) (gameOverEl s) (finalScoreEl s).
Definition set_soundLog v s :=
  mkGameState (blocks s) (drops s) (camera s) (stack s) (currentBlock s)
    (direction s) (gameEnded s) (isPlacingBlock s) (score s) (speed s)
    (animationId s) (lastTime s) (pendingSpawns s) (rafPending s) (rafNext s)
    v (scoreEl s) (gameOverEl s) (finalScoreEl s).
Definition set_scoreEl v s :=
  mkGameState (blocks s) (drops s) (camera s) (stack s) (currentBlock s)
    (direction s) (gameEnded s) (isPlacingBlock s) (score s) (speed s)
    (animationId s) (lastTime s) (pendingSpawns s) (rafPending s) (rafNext s)
    (soundLog s) v (gameOverEl s) (finalScoreEl s).
Definition set_gameOverEl v s :=
  mkGameState (blocks s) (drops s) (camera s) (stack s) (currentBlock s)
    (direction s) (gameEnded s) (isPlacingBlock s) (score s) (speed s)
    (animationId s) (lastTime s) (pendingSpawns s) (rafPending s) (rafNext s)
    (soundLog s) (scoreEl s) v (finalScoreEl s).
Definition set_finalScoreEl v s :=
  mkGameState (blocks s) (drops s) (camera s) (stack s) (currentBlock s)
    (direction s) (gameEnded s) (isPlacingBlock s) (score s) (speed s)
    (animationId s) (lastTime s) (pendingSpawns s) (rafPending s) (rafNext s)
    (soundLog s) (scoreEl s) (gameOverEl s) v.

(** Updates of one field of a block or of its mesh. *)
Definition set_moving (v : bool) (b : Block) : Block :=
  mkBlock (mesh b) (width b) (depth b) v.
Definition set_width (v : Q) (b : Block) : Block :=
  mkBlock (mesh b) v (depth b) (moving b).
Definition set_mesh (v : Mesh) (b : Block) : Block :=
  mkBlock v (width b) (depth b) (moving b).
Definition set_position_x (v : Q) (m : Mesh) : Mesh :=
  mkMesh (geometry_width m) (geometry_depth m) v (position_y m) (scale_x m).
Definition set_scale_x (v : Q) (m : Mesh) : Mesh :=
  mkMesh (geometry_width m) (geometry_depth m) (position_x m) (position_y m) v.

(** ** The monad of the code: state and [TypeError] *)

Inductive Completion (A : Type) : Type :=
| Normal (a : A)
| TypeError.
Arguments Normal {A} a.
Arguments TypeError {A}.

Definition JS (A : Type) : Type := GameState -> Completion A * GameState.

Definition ret {A} (a : A) : JS A := fun s => (Normal a, s).

Definition bind {A B} (m : JS A) (k : A -> JS B) : JS B :=
  fun s =>
    match m s with
    | (Normal a, s') => k a s'
    | (TypeError, s') => (TypeError, s')
    end.

Notation "x <- c ;; k" := (bind c (fun x => k))
  (at level 100, c at next level, right associativity).
Notation "c ;; k" := (bind c (fun _ => k))
  (at level 100, right associativity).

Definition get : JS GameState := fun s => (Normal s, s).
Definition modify (f : GameState -> GameState) : JS unit :=
  fun s => (Normal tt, f s).
Definition throw {A} : JS A := fun s => (TypeError, s).

(** Reading through a reference.  [o] is what the variable holds: [None]
    stands for [undefined] or [null], on which a property access throws.
    (A reference outside the store does not exist in JavaScript; the model
    treats it the same way.) *)
Definition load (o : option ref) : JS Block :=
  fun s =>
    match o with
    | None => (TypeError, s)
    | Some r =>
        match blocks s !! r with
        | Some b => (Normal b, s)
        | None => (TypeError, s)
        end
    end.

(** In-place update of the object behind [r]. *)
Definition update (r : ref) (f : Block -> Block) : JS unit :=
  fun s =>
    match blocks s !! r with
    | Some b => (Normal tt, set_blocks (<[r := f b]> (blocks s)) s)
    | None => (TypeError, s)
    end.

(** [array.length] as a number. *)
Definition len {A} (l : list A) : Q := inject_Z (Z.of_nat (length l)).

(** [array[array.length - 1]]; [undefined] on the empty array. *)
Definition lastOf {A} (l : list A) : option A := l !! (length l - 1)%nat.

(** ** Host functions *)

(** [requestAnimationFrame(animate)]: registers the callback and returns a
    fresh non-zero handle. *)
Definition requestAnimationFrame : JS positive :=
  s <- get ;;
  let h := rafNext s in
  modify (set_rafNext (Pos.succ h)) ;;
  modify (set_rafPending (Some h)) ;;
  ret h.

(** [cancelAnimationFrame(h)] *)
Definition cancelAnimationFrame (h : positive) : JS unit :=
  s <- get ;;
  match rafPending s with
  | Some h' => if Pos.eqb h h' then modify (set_rafPending None) else ret tt
  | None => ret tt
  end.

(** [gameState.sounds.X.play().catch(console.error)] *)
Definition play (x : Sound) : JS unit :=
  modify (fun s => set_soundLog (x :: soundLog s) s).

(** [setTimeout(callback, CONFIG.ANIMATION.BLOCK_PLACE_DELAY)]: the only
    callback ever scheduled is the one of [placeBlock], so the timer queue is
    the number of its pending instances. *)
Definition setTimeout : JS unit :=
  modify (fun s => set_pendingSpawns (S (pendingSpawns s)) s).

(** ** The functions of [script.js] *)

(** [setupCamera]: the camera is created at height [CAMERA_OFFSET]. *)
Definition setupCamera : JS unit :=
  modify (set_camera (Some CONFIG.CAMERA_OFFSET)).

(** [addBlock(x, y, width, depth, moving = false)] *)
Definition addBlock (x y width depth : Q) (moving : bool) : JS ref :=
  s <- get ;;
  let mesh := mkMesh width depth x y 1 in
  let block := mkBlock mesh width depth moving in
  let r := length (blocks s) in
  modify (set_blocks (blocks s ++ [block])) ;;
  (if moving
   then modify (set_currentBlock (Some r))
   else modify (fun s => set_stack (stack s ++ [r]) s)) ;;
  ret r.

(** [addNewMovingBlock()] *)
Definition addNewMovingBlock : JS ref :=
  s <- get ;;
  let lastBlock := lastOf (stack s) in
  let nextY := len (stack s) * CONFIG.BOX_HEIGHT in
  lb <- load lastBlock ;;
  newBlock <- addBlock (- CONFIG.BOUNDS) nextY (width lb) (depth lb) true ;;
  modify (set_currentBlock (Some newBlock)) ;;
  modify (set_isPlacingBlock false) ;;
  ret newBlock.

(** [updateScore()] *)
Definition updateScore : JS unit :=
  modify (fun s => set_score (score s + 1)%Z s) ;;
  s <- get ;;
  match scoreEl s with
  | None => throw
  | Some _ => modify (set_scoreEl (Some (Bloques (score s))))
  end.

(** [increaseDifficulty()] *)
Definition increaseDifficulty : JS unit :=
  modify (fun s => set_speed (speed s + CONFIG.SPEED_INCREASE) s).

(** [endGame()] *)
Definition endGame : JS unit :=
  modify (set_gameEnded true) ;;
  s <- get ;;
  (match gameOverEl s, finalScoreEl s with
   | Some _, Some _ =>
       modify (set_gameOverEl (Some true)) ;;
       modify (set_finalScoreEl (Some (Lograste (score s))))
   | _, _ => ret tt
   end) ;;
  match animationId s with
  | Some h => cancelAnimationFrame h
  | None => ret tt
  end.

(** [createFallingPiece(blockDir, newWidth, overhang)] *)
Definition createFallingPiece (blockDir newWidth overhang : Q) : JS unit :=
  s <- get ;;
  cb <- load (currentBlock s) ;;
  let drop :=
    mkMesh overhang (depth cb)
      (position_x (mesh cb) + blockDir * (newWidth / 2 + overhang / 2))
      (position_y (mesh cb))
      1 in
  modify (fun s => set_drops (drop :: drops s) s).

(** [placeBlock()] *)
Definition placeBlock : JS unit :=
  s <- get ;;
  match currentBlock s with
  | None => ret tt
  | Some cur =>
      if gameEnded s || isPlacingBlock s then ret tt else
      modify (set_isPlacingBlock true) ;;
      update cur (set_moving false) ;;
      let prev := lastOf (stack s) in
      cb <- load (Some cur) ;;
      pb <- load prev ;;
      let delta := position_x (mesh cb) - position_x (mesh pb) in
      let overhang := Qabs delta in
      if Qgeb overhang (width cb) then
        play snd_fail ;;
        endGame
      else
        let newWidth := width cb - overhang in
        let blockDir := if Qltb 0 delta then 1 else -1 in
        update cur (fun b => set_mesh (set_scale_x (newWidth / width b) (mesh b)) b) ;;
        update cur (fun b => set_mesh (set_position_x (position_x (mesh b) - delta / 2) (mesh b)) b) ;;
        update cur (set_width newWidth) ;;
        createFallingPiece blockDir newWidth overhang ;;
        modify (fun s => set_stack (stack s ++ [cur]) s) ;;
        updateScore ;;
        play snd_drop ;;
        increaseDifficulty ;;
        setTimeout
  end.

(** The callback that [placeBlock] hands to [setTimeout]. *)
Definition spawnCallback : JS unit :=
  s <- get ;;
  if gameEnded s then ret tt else (addNewMovingBlock ;; ret tt).

(** [moveCurrentBlock(deltaTime)] *)
Definition moveCurrentBlock (deltaTime : Q) : JS unit :=
  s <- get ;;
  match currentBlock s with
  | None => ret tt
  | Some cur =>
      cb <- load (Some cur) ;;
      if negb (moving cb) || gameEnded s then ret tt else
      update cur (fun b =>
        set_mesh (set_position_x
          (position_x (mesh b) + speed s * direction s * deltaTime) (mesh b)) b) ;;
      cb' <- load (Some cur) ;;
      if Qltb CONFIG.BOUNDS (Qabs (position_x (mesh cb'))) then
        modify (fun s => set_direction (direction s * -1) s) ;;
        update cur (fun b =>
          set_mesh (set_position_x
            (Qmax (- CONFIG.BOUNDS) (Qmin CONFIG.BOUNDS (position_x (mesh b))))
            (mesh b)) b)
      else ret tt
  end.

(** [updateCamera(deltaTime)] *)
Definition updateCamera (deltaTime : Q) : JS unit :=
  s <- get ;;
  match stack s with
  | [] => ret tt
  | _ :: _ =>
      let targetY := len (stack s) * CONFIG.BOX_HEIGHT + 2 in
      match camera s with
      | None => throw
      | Some currentY =>
          if Qltb currentY targetY then
            let newY :=
              currentY + (targetY - currentY) * CONFIG.ANIMATION.CAMERA_SPEED * deltaTime in
            modify (set_camera (Some newY))
          else ret tt
      end
  end.

(** [updateGame(deltaTime)] *)
Definition updateGame (deltaTime : Q) : JS unit :=
  s <- get ;;
  if gameEnded s then ret tt else
  moveCurrentBlock deltaTime ;;
  updateCamera deltaTime.

(** [animate(currentTime)] *)
Definition animate (currentTime : Q) : JS unit :=
  h <- requestAnimationFrame ;;
  modify (set_animationId (Some h)) ;;
  s <- get ;;
  let deltaTime := Qmin (currentTime - lastTime s) 100 / 16.67 in
  modify (set_lastTime currentTime) ;;
  updateGame deltaTime.

(** The events that [handleInput] is registered for. *)
Inductive InputEvent : Type :=
| keydown (code : string)
| touchstart
| mousedown.

(** [handleInput(e)] of [setupEventListeners] *)
Definition handleInput (e : InputEvent) : JS unit :=
  match e with
  | keydown code =>
      if negb (String.eqb code "Space") then ret tt else
      s <- get ;;
      if negb (gameEnded s) && negb (isPlacingBlock s) then placeBlock else ret tt
  | _ =>
      s <- get ;;
      if negb (gameEnded s) && negb (isPlacingBlock s) then placeBlock else ret tt
  end.

(** The object literal [gameState], in a page whose elements [score],
    [gameOver] and [finalScore] are as given. *)
Definition gameState0 (scoreE : option Text) (gameOverE : option bool)
    (finalScoreE : option Text) : GameState :=
  {| blocks := []; drops := []; camera := None;
     stack := []; currentBlock := None; direction := 1;
     gameEnded := false; isPlacingBlock := false; score := 0%Z;
     speed := CONFIG.INITIAL_SPEED; animationId := None; lastTime := 0;
     pendingSpawns := 0%nat; rafPending := None; rafNext := 1%positive;
     soundLog := []; scoreEl := scoreE; gameOverEl := gameOverE;
     finalScoreEl := finalScoreE |}.

(** [init()], where [now] is the value of [performance.now()]. *)
Definition init (now : Q) : JS unit :=
  setupCamera ;;
  addBlock 0 0 CONFIG.BOX_SIZE CONFIG.BOX_SIZE false ;;
  addNewMovingBlock ;;
  modify (set_lastTime now) ;;
  h <- requestAnimationFrame ;;
  modify (set_animationId (Some h)).

(** ** The event loop *)

Inductive Event : Type :=
| Frame (currentTime : Q)   (* the host runs the requested frame callback *)
| Input (e : InputEvent)    (* a key press, touch or click *)
| Timeout                   (* a pending [setTimeout] callback fires *)
| Terminate.                (* [endGame] requested from outside a placement *)

Definition dispatch (ev : Event) : JS unit :=
  match ev with
  | Frame t =>
      s <- get ;;
      match rafPending s with
      | None => ret tt
      | Some _ => modify (set_rafPending None) ;; animate t
      end
  | Input e => handleInput e
  | Timeout =>
      s <- get ;;
      match pendingSpawns s with
      | O => ret tt
      | S n => modify (set_pendingSpawns n) ;; spawnCallback
      end
  | Terminate => endGame
  end.

(** One turn of the event loop.  An exception that escapes the handler ends
    the turn; what the handler had written so far stays. *)
Definition step (ev : Event) (s : GameState) : GameState := (dispatch ev s).2.

Definition run (evs : list Event) (s : GameState) : GameState :=
  foldl (fun s ev => step ev s) s evs.

(** The state after [init] in a page with the given elements. *)
Definition boot (scoreE : option Text) (gameOverE : option bool)
    (finalScoreE : option Text) (now : Q) : GameState :=
  (init now (gameState0 scoreE gameOverE finalScoreE)).2.

(** The state after [init] in a page with all three elements. *)
Definition started (now : Q) : GameState :=
  boot (Some Markup) (Some false) (Some Markup) now.

(** * Definitions for the statements *)

(** ** Placement *)

(** The guard of [placeBlock]. *)
Definition placeBlock_enabled (s : GameState) : bool :=
  match currentBlock s with
  | Some _ => negb (gameEnded s) && negb (isPlacingBlock s)
  | None => false
  end.

(** The values that a placement computes from the current block [cb] and
    the block [pb] on top of the stack, under the names they have in
    [placeBlock]; then the current block after the three assignments of a
    successful placement, and the debris mesh of [createFallingPiece]. *)
Section Trim.
Variables (cb pb : Block).

Definition delta : Q := position_x (mesh cb) - position_x (mesh pb).

Definition overhang : Q := Qabs delta.

Definition newWidth : Q := width cb - overhang.

Definition blockDir : Q := if Qltb 0 delta then 1 else -1.

Definition kept : Block :=
  mkBlock
    (mkMesh (geometry_width (mesh cb)) (geometry_depth (mesh cb))
       (position_x (mesh cb) - delta / 2) (position_y (mesh cb))
       (newWidth / width cb))
    newWidth (depth cb) false.

Definition debris : Mesh :=
  mkMesh overhang (depth cb)
    (position_x (mesh kept) + blockDir * (newWidth / 2 + overhang / 2))
    (position_y (mesh cb)) 1.

End Trim.

(** What follows the push in a successful placement. *)
Definition afterPush : JS unit :=
  updateScore ;; play snd_drop ;; increaseDifficulty ;; setTimeout.



(** ** Spawning and motion *)

(** Whether there is an active block, that is, a current block that is
    moving. *)
Definition activeMoving (s : GameState) : bool :=
  match currentBlock s with
  | Some r =>
      match blocks s !! r with
      | Some b => moving b
      | None => false
      end
  | None => false
  end.

(** The block that [addNewMovingBlock] makes above a block [tb] when the
    stack holds [n] blocks. *)
Definition spawned (tb : Block) (n : Q) : Block :=
  mkBlock
    (mkMesh (width tb) (depth tb) (- CONFIG.BOUNDS) (n * CONFIG.BOX_HEIGHT) 1)
    (width tb) (depth tb) true.

(** [s'] differs from [s] at most in the positions of blocks, the
    direction, the camera and the host's frame bookkeeping. *)
Definition same_game (s s' : GameState) : Prop :=
  stack s' = stack s /\
  currentBlock s' = currentBlock s /\
  isPlacingBlock s' = isPlacingBlock s /\
  gameEnded s' = gameEnded s /\
  score s' = score s /\
  speed s' = speed s /\
  scoreEl s' = scoreEl s /\
  drops s' = drops s /\
  width <$> blocks s' = width <$> blocks s.

(** ** Successful placements in a session *)

(** The input handler goes on to its guard: any touch or click, and the
    space key. *)
Definition accepted (e : InputEvent) : bool :=
  match e with
  | keydown code => String.eqb code "Space"
  | _ => true
  end.

(** [placeBlock] passes its guard and finds an overhang smaller than the
    width of the current block. *)
Definition placement_succeeds (s : GameState) : bool :=
  placeBlock_enabled s &&
  match currentBlock s, lastOf (stack s) with
  | Some cur, Some prev =>
      match blocks s !! cur, blocks s !! prev with
      | Some cb, Some pb => Qltb (overhang cb pb) (width cb)
      | _, _ => false
      end
  | _, _ => false
  end.

(** The event is an input that leads to a successful placement. *)
Definition succeeds (ev : Event) (s : GameState) : bool :=
  match ev with
  | Input e => accepted e && placement_succeeds s
  | _ => false
  end.

(** The number of successful placements in a session that starts in [s]. *)
Fixpoint placements (evs : list Event) (s : GameState) : nat :=
  match evs with
  | [] => 0
  | ev :: evs' =>
      ((if succeeds ev s then 1 else 0) + placements evs' (step ev s))%nat
  end.

(** ** The shape of the stack *)

(** The width of the block behind a reference. *)
Definition bwidth (s : GameState) (r : ref) : option Q :=
  (width <$> blocks s) !! r.

(** Every block of the stack has a positive width, and none is wider than
    the block beneath it. *)
Definition stack_ok (s : GameState) : Prop :=
  (forall r, r ∈ stack s -> exists w, bwidth s r = Some w /\ 0 < w) /\
  (forall i r r' w w',
     stack s !! i = Some r -> stack s !! S i = Some r' ->
     bwidth s r = Some w -> bwidth s r' = Some w' -> w' <= w).

(** When a placement may start, the current block is not yet on the stack
    and is no wider than the top of the stack. *)
Definition ready (s : GameState) : Prop :=
  isPlacingBlock s = false ->
  forall cur, currentBlock s = Some cur ->
    (cur ∉ stack s) /\
    exists w top tw,
      bwidth s cur = Some w /\ lastOf (stack s) = Some top /\
      bwidth s top = Some tw /\ w <= tw.

(** The invariant of the event loop. *)
Definition Inv (s : GameState) : Prop :=
  stack s <> [] /\ stack_ok s /\ ready s.

(** [s'] has the stack, the current block, the placing flag and the block
    widths of [s]. *)
Definition same_shape (s s' : GameState) : Prop :=
  stack s' = stack s /\
  currentBlock s' = currentBlock s /\
  isPlacingBlock s' = isPlacingBlock s /\
  width <$> blocks s' = width <$> blocks s.

(** ** Sample states and sessions *)

(** A running game with the base block and one moving block of full width
    at horizontal position [x]. *)
Definition scenario (x : Q) : GameState :=
  {| blocks := [ mkBlock (mkMesh 3 3 0 0 1) 3 3 false;
                 mkBlock (mkMesh 3 3 x 0.5 1) 3 3 true ];
     drops := []; camera := Some 4;
     stack := [0%nat]; currentBlock := Some 1%nat; direction := 1;
     gameEnded := false; isPlacingBlock := false; score := 0%Z;
     speed := CONFIG.INITIAL_SPEED; animationId := Some 1%positive;
     lastTime := 0;
     pendingSpawns := 0%nat; rafPending := Some 1%positive;
     rafNext := 2%positive;
     soundLog := []; scoreEl := Some Markup; gameOverEl := Some false;
     finalScoreEl := Some Markup |}.





(** * The arithmetic in binary64 *)

(** The numbers of [script.js] are binary64 values, and [+], [-], [*] and
    [/] round to the nearest one.  The definitions above compute in [Q];
    this module has the arithmetic of [increaseDifficulty], [placeBlock],
    [createFallingPiece], [moveCurrentBlock] and [animate] on [float], the
    binary64 numbers with the rounding of JavaScript.  A decimal literal
    stands for the nearest binary64 value, as it does in JavaScript. *)
#[local] Set Warnings "-inexact-float".

Module Binary64.

(** The rational number that a binary64 value is; 0 for the infinities and
    [NaN], which [finite] tells apart. *)
Definition value (f : float) : Q :=
  match Prim2SF f with
  | S754_finite s m e => inject_Z (if s then Z.neg m else Z.pos m) * 2 ^ e
  | _ => 0
  end.

Definition finite (f : float) : bool :=
  match Prim2SF f with
  | S754_zero _ | S754_finite _ _ _ => true
  | _ => false
  end.

(** [f] is the number [q]. *)
Definition exact (f : float) (q : Q) : Prop :=
  finite f = true /\ value f == q.

Local Open Scope float_scope.

Definition INITIAL_SPEED : float := 0.08.
Definition SPEED_INCREASE : float := 0.002.
Definition BOUNDS : float := 5.

(** [Math.min] and [Math.max] (on operands that are not both zeros). *)
Definition Math_min (a b : float) : float :=
  if is_nan a || is_nan b then nan else if a <? b then a else b.

Definition Math_max (a b : float) : float :=
  if is_nan a || is_nan b then nan else if a <? b then b else a.

(** [gameState.speed += CONFIG.SPEED_INCREASE]: the new speed. *)
Definition increaseDifficulty (speed : float) : float :=
  speed + SPEED_INCREASE.


(** The numbers of [placeBlock] for a current block at [position_x] of
    width [width] over a block at [prev_x]. *)
Definition delta (position_x prev_x : float) : float :=
  position_x - prev_x.

Definition overhang (position_x prev_x : float) : float :=
  abs (delta position_x prev_x).

Definition newWidth (position_x prev_x width : float) : float :=
  width - overhang position_x prev_x.

Definition blockDir (position_x prev_x : float) : float :=
  if 0 <? delta position_x prev_x then 1 else -1.

(** [gameState.currentBlock.mesh.position.x -= delta / 2] *)
Definition keptPos (position_x prev_x : float) : float :=
  position_x - delta position_x prev_x / 2.

(** [createFallingPiece]: the horizontal position given to the debris, for
    a current block that is now at [position_x]. *)
Definition createFallingPiece (blockDir newWidth overhang position_x : float)
    : float :=
  position_x + blockDir * (newWidth / 2 + overhang / 2).

(** The kept block and the debris of a placement. *)
Record Cut : Type := mkCut {
  kept_width : float;
  kept_x : float;
  drop_width : float;
  drop_x : float
}.

(** [placeBlock] past its guard: [None] when the game ends. *)
Definition placeBlock (position_x prev_x width : float) : option Cut :=
  let overhang := overhang position_x prev_x in
  if width <=? overhang then None
  else
    let newWidth := newWidth position_x prev_x width in
    let blockDir := blockDir position_x prev_x in
    let position_x' := keptPos position_x prev_x in
    Some (mkCut newWidth position_x' overhang
            (createFallingPiece blockDir newWidth overhang position_x')).


(** [moveCurrentBlock] on a moving block of a running game: the new
    position and direction. *)
Definition moveCurrentBlock (speed direction deltaTime position_x : float)
    : float * float :=
  let x := position_x + speed * direction * deltaTime in
  if BOUNDS <? abs x
  then (Math_max (- BOUNDS) (Math_min BOUNDS x), direction * -1)
  else (x, direction).

(** [animate], for the time of the last frame and the position and
    direction of the moving block. *)
Definition animate (speed currentTime : float) (st : float * float * float)
    : float * float * float :=
  let '(lastTime, position_x, direction) := st in
  let deltaTime := Math_min (currentTime - lastTime) 100 / 16.67 in
  let '(x, d) := moveCurrentBlock speed direction deltaTime position_x in
  (currentTime, x, d).


End Binary64.

(** * Further definitions: the tower, the end of the game, falling pieces *)

(** ** The tower *)

(** What holds of every block object: it lies within the bounds, it has the
    depth of the base, and its width is positive. *)
Definition block_ok (b : Block) : Prop :=
  (- CONFIG.BOUNDS <= position_x (mesh b) <= CONFIG.BOUNDS) /\
  (depth b = CONFIG.BOX_SIZE /\ geometry_depth (mesh b) = CONFIG.BOX_SIZE) /\
  0 < width b.

(** The invariant of the game after [init]. *)
Record Tower (s : GameState) : Prop := mkTower {
  tw_blocks : Forall block_ok (blocks s);
  tw_direction : direction s = 1 \/ direction s = -1;
  tw_score : Z.of_nat (length (stack s)) = (score s + 1)%Z;
  tw_timer : (pendingSpawns s <= 1)%nat;
  tw_camera : camera s <> None;
  tw_stack :
    forall i r, stack s !! i = Some r ->
      exists b, blocks s !! r = Some b /\ moving b = false /\
        position_y (mesh b) == inject_Z (Z.of_nat i) * CONFIG.BOX_HEIGHT;
  tw_current :
    exists cur cb top tb,
      currentBlock s = Some cur /\ blocks s !! cur = Some cb /\
      lastOf (stack s) = Some top /\ blocks s !! top = Some tb /\
      (forall r b, blocks s !! r = Some b -> moving b = true -> r = cur) /\
      if isPlacingBlock s then moving cb = false
      else moving cb = true /\ (cur ∉ stack s) /\ width cb = width tb /\
           position_y (mesh cb) == len (stack s) * CONFIG.BOX_HEIGHT /\
           pendingSpawns s = 0%nat
}.

(** [s'] has the game data of [s] that [Tower] speaks of. *)
Definition core_eq (s s' : GameState) : Prop :=
  blocks s' = blocks s /\
  stack s' = stack s /\
  currentBlock s' = currentBlock s /\
  direction s' = direction s /\
  isPlacingBlock s' = isPlacingBlock s /\
  score s' = score s /\
  pendingSpawns s' = pendingSpawns s /\
  (camera s <> None -> camera s' <> None).

(** ** The end of the game *)


(** ** A page without the [score] element *)

(** The session in such a page: nothing is scheduled and the speed stays
    what it was; once a block has been placed, the placing flag stays set. *)
Definition stuck (s : GameState) : Prop :=
  scoreEl s = None /\
  pendingSpawns s = 0%nat /\
  speed s = CONFIG.INITIAL_SPEED /\
  (score s = 0%Z \/ (score s = 1%Z /\ isPlacingBlock s = true)).

(** ** Falling pieces ([animateFallingPiece]) *)



(** * Properties *)

(** ** Comparisons *)

Lemma Qltb_lt (a b : Q) : Qltb a b = true <-> a < b.
Proof.
  unfold Qltb. rewrite Qlt_alt. destruct (a ?= b); split; congruence.
Qed.

Lemma Qltb_ge (a b : Q) : Qltb a b = false <-> b <= a.
Proof.
  split; intros H.
  - apply Qnot_lt_le. intros Hlt. apply Qltb_lt in Hlt. congruence.
  - destruct (Qltb a b) eqn:E; [|reflexivity].
    apply Qltb_lt in E. lra.
Qed.

Lemma Qgeb_ge (a b : Q) : Qgeb a b = true <-> b <= a.
Proof.
  unfold Qgeb. rewrite negb_true_iff. apply Qltb_ge.
Qed.

Lemma Qgeb_lt (a b : Q) : Qgeb a b = false <-> a < b.
Proof.
  unfold Qgeb. rewrite negb_false_iff. apply Qltb_lt.
Qed.

(** Linear arithmetic with halves. *)
Ltac qlra := unfold Qdiv in *; change (/ 2) with (1 # 2) in *; lra.

(** ** Running the monad *)

Ltac js_unfold :=
  unfold bind, get, modify, ret, throw, load, update, play, setTimeout.
Ltac js_simpl :=
  cbn -[Qplus Qmult Qminus Qdiv Qabs Qmax Qmin Qltb Qgeb Qopp Qinv Qcompare
        lookup insert length app len lastOf].

(** Reading back a block that has just been written. *)
Ltac store_lookup H :=
  cbn [blocks set_blocks set_isPlacingBlock set_direction set_drops set_stack];
  apply list_lookup_insert_eq; rewrite ?length_insert;
  eapply lookup_lt_Some; exact H.


Lemma bind_run {A B} (m : JS A) (k : A -> JS B) (s s' : GameState) (a : A) :
  m s = (Normal a, s') -> bind m k s = k a s'.
Proof. intros H. unfold bind. rewrite H. reflexivity. Qed.

Lemma bind_throw {A B} (m : JS A) (k : A -> JS B) (s s' : GameState) :
  m s = (TypeError, s') -> bind m k s = (TypeError, s').
Proof. intros H. unfold bind. rewrite H. reflexivity. Qed.

Lemma bind_modify {B} (f : GameState -> GameState) (k : unit -> JS B)
    (s : GameState) :
  bind (modify f) k s = k tt (f s).
Proof. reflexivity. Qed.

Lemma bind_play {B} (x : Sound) (k : unit -> JS B) (s : GameState) :
  bind (play x) k s = k tt (set_soundLog (x :: soundLog s) s).
Proof. reflexivity. Qed.

Lemma bind_get {B} (k : GameState -> JS B) (s : GameState) :
  bind get k s = k s s.
Proof. reflexivity. Qed.

Lemma load_some (s : GameState) (r : ref) (b : Block) :
  blocks s !! r = Some b -> load (Some r) s = (Normal b, s).
Proof. intros H. unfold load. rewrite H. reflexivity. Qed.

Lemma update_some (s : GameState) (r : ref) (b : Block) (f : Block -> Block) :
  blocks s !! r = Some b ->
  update r f s = (Normal tt, set_blocks (<[r := f b]> (blocks s)) s).
Proof. intros H. unfold update. rewrite H. reflexivity. Qed.

Lemma lookup_updated (l : list Block) (r : ref) (b b' : Block) :
  l !! r = Some b -> <[r := b']> l !! r = Some b'.
Proof.
  intros H. apply list_lookup_insert_eq. eapply lookup_lt_Some. exact H.
Qed.

(** ** Motion ([moveCurrentBlock])  *)

Lemma moveCurrentBlock_moving (s : GameState) (cur : ref) (cb : Block) (dt : Q) :
  currentBlock s = Some cur ->
  blocks s !! cur = Some cb ->
  moving cb = true ->
  gameEnded s = false ->
  let newPosition := position_x (mesh cb) + speed s * direction s * dt in
  let moved := set_mesh (set_position_x newPosition (mesh cb)) cb in
  moveCurrentBlock dt s =
    (Normal tt,
     if Qltb CONFIG.BOUNDS (Qabs newPosition) then
       set_blocks
         (<[cur := set_mesh (set_position_x
                     (Qmax (- CONFIG.BOUNDS) (Qmin CONFIG.BOUNDS newPosition))
                     (mesh moved)) moved]> (<[cur := moved]> (blocks s)))
         (set_direction (direction s * -1) s)
     else set_blocks (<[cur := moved]> (blocks s)) s).
Proof.
  intros Hcur Hcb Hmov Hend newPosition moved.
  unfold moveCurrentBlock. js_unfold. rewrite Hcur. js_simpl.
  rewrite Hcb. js_simpl. rewrite Hmov, Hend. js_simpl.
  rewrite Hcb. js_simpl.
  rewrite (lookup_updated _ _ _ _ Hcb). js_simpl.
  fold newPosition. fold moved.
  destruct (Qltb CONFIG.BOUNDS (Qabs newPosition)); js_simpl.
  - rewrite (lookup_updated _ _ _ _ Hcb). reflexivity.
  - reflexivity.
Qed.

(** C3.  A motion step on a moving block of a running game: the new position
    is [position + speed * direction * dt]; when its absolute value exceeds
    [BOUNDS] the direction is multiplied by -1 and the position is clamped
    into [[-BOUNDS, BOUNDS]]; otherwise the direction and the new position are
    kept as they are.  For a non-zero direction, the direction is reversed
    exactly when the new position is out of bounds. *)
Theorem moveCurrentBlock_advance (s : GameState) (cur : ref) (cb : Block) (dt : Q) :
  currentBlock s = Some cur ->
  blocks s !! cur = Some cb ->
  moving cb = true ->
  gameEnded s = false ->
  let newPosition := position_x (mesh cb) + speed s * direction s * dt in
  let s' := (moveCurrentBlock dt s).2 in
  exists cb',
    (moveCurrentBlock dt s).1 = Normal tt /\
    blocks s' !! cur = Some cb' /\
    (CONFIG.BOUNDS < Qabs newPosition ->
       direction s' = direction s * -1 /\
       position_x (mesh cb') = Qmax (- CONFIG.BOUNDS) (Qmin CONFIG.BOUNDS newPosition) /\
       - CONFIG.BOUNDS <= position_x (mesh cb') <= CONFIG.BOUNDS) /\
    (Qabs newPosition <= CONFIG.BOUNDS ->
       direction s' = direction s /\ position_x (mesh cb') = newPosition) /\
    (~ direction s == 0 ->
       (direction s' == - direction s <-> CONFIG.BOUNDS < Qabs newPosition)).
Proof.
  intros Hcur Hcb Hmov Hend newPosition s'.
  subst s'. rewrite (moveCurrentBlock_moving s cur cb dt Hcur Hcb Hmov Hend).
  fold newPosition. js_simpl.
  assert (Hlt : (cur < length (blocks s))%nat) by (eapply lookup_lt_Some; exact Hcb).
  destruct (Qltb CONFIG.BOUNDS (Qabs newPosition)) eqn:E.
  - apply Qltb_lt in E. eexists. split; [reflexivity|]. split.
    { js_simpl. apply list_lookup_insert_eq. rewrite length_insert. exact Hlt. }
    js_simpl. split; [|split].
    + intros _. split; [reflexivity|]. split; [reflexivity|].
      split.
      * apply Q.le_max_l.
      * apply Q.max_lub; [unfold CONFIG.BOUNDS; lra | apply Q.le_min_l].
    + intros H. lra.
    + intros Hd. split; [intros _; exact E|]. intros _. ring.
  - apply Qltb_ge in E. eexists. split; [reflexivity|]. split.
    { js_simpl. apply list_lookup_insert_eq. exact Hlt. }
    js_simpl. split; [|split].
    + intros H. lra.
    + intros _. split; reflexivity.
    + intros Hd. split; [|intros H; lra].
      intros H. exfalso. apply Hd. lra.
Qed.

Lemma moveCurrentBlock_advance_witness :
  exists cb',
    blocks (moveCurrentBlock 2 (scenario 4.9)).2 !! 1%nat = Some cb' /\
    direction (moveCurrentBlock 2 (scenario 4.9)).2 = 1 * -1 /\
    position_x (mesh cb') = Qmax (- 5) (Qmin 5 (4.9 + 0.08 * 1 * 2)) /\
    - 5 <= position_x (mesh cb') <= 5.
Proof.
  destruct (moveCurrentBlock_advance (scenario 4.9) 1%nat _ 2
              eq_refl eq_refl eq_refl eq_refl)
    as (cb' & _ & Hb & Hout & _).
  exists cb'. split; [exact Hb|].
  apply Hout. vm_compute. reflexivity.
Defined.

(** ** Placement ([placeBlock], [createFallingPiece], [endGame]) *)

Lemma placeBlock_disabled (s : GameState) :
placeBlock_enabled s = false -> placeBlock s = (Normal tt, s).
Proof.
unfold placeBlock_enabled, placeBlock. js_unfold.
destruct (currentBlock s); [|reflexivity].
destruct (gameEnded s), (isPlacingBlock s); cbn; congruence.
Qed.

(** The store after [gameState.currentBlock.moving = false]: the block that
  [prev] denotes is read from it. *)
Lemma lookup_after_moving (l : list Block) (cur prev : ref) (cb pb : Block) :
l !! cur = Some cb ->
l !! prev = Some pb ->
exists pb', <[cur := set_moving false cb]> l !! prev = Some pb' /\
            mesh pb' = mesh pb /\ width pb' = width pb.
Proof.
intros Hc Hp. destruct (decide (cur = prev)) as [->|Hne].
- exists (set_moving false cb). split.
  + eapply lookup_updated; eassumption.
  + rewrite Hp in Hc. injection Hc as ->. split; reflexivity.
- exists pb. split; [|split; reflexivity].
  rewrite list_lookup_insert_ne by exact Hne. exact Hp.
Qed.

Section Placement.
Variables (s : GameState) (cur prev : ref) (cb pb : Block).
Hypothesis Hcur : currentBlock s = Some cur.
Hypothesis Hend : gameEnded s = false.
Hypothesis Hplacing : isPlacingBlock s = false.
Hypothesis Hcb : blocks s !! cur = Some cb.
Hypothesis Hprev : lastOf (stack s) = Some prev.
Hypothesis Hpb : blocks s !! prev = Some pb.

Lemma placeBlock_failure :
  width cb <= overhang cb pb ->
  placeBlock s =
    (play snd_fail ;; endGame)
      (set_blocks (<[cur := set_moving false cb]> (blocks s))
         (set_isPlacingBlock true s)).
Proof using Hcur Hend Hplacing Hcb Hprev Hpb.
  intros Hfail.
  destruct (lookup_after_moving _ _ _ _ _ Hcb Hpb) as (pb' & Hpb' & Hm & _).
  unfold placeBlock. unfold bind at 1. unfold get at 1. cbv beta iota.
  rewrite Hcur, Hend, Hplacing. cbn [orb].
  unfold bind at 1. unfold modify at 1. cbv beta iota.
  erewrite bind_run by (apply update_some; exact Hcb).
  erewrite bind_run by (apply load_some; store_lookup Hcb).
  rewrite Hprev.
  erewrite bind_run by (apply load_some; cbn; exact Hpb').
  cbn [mesh width set_moving]. rewrite Hm.
  apply Qgeb_ge in Hfail. unfold overhang, delta in Hfail.
  rewrite Hfail. reflexivity.
Qed.

Lemma placeBlock_success :
  overhang cb pb < width cb ->
  placeBlock s =
    afterPush
      (set_stack (stack s ++ [cur])
         (set_drops (debris cb pb :: drops s)
            (set_blocks (<[cur := kept cb pb]> (blocks s))
               (set_isPlacingBlock true s)))).
Proof using Hcur Hend Hplacing Hcb Hprev Hpb.
  intros Hok.
  destruct (lookup_after_moving _ _ _ _ _ Hcb Hpb) as (pb' & Hpb' & Hm & _).
  unfold placeBlock. unfold bind at 1. unfold get at 1. cbv beta iota.
  rewrite Hcur, Hend, Hplacing. cbn [orb].
  unfold bind at 1. unfold modify at 1. cbv beta iota.
  erewrite bind_run by (apply update_some; exact Hcb).
  erewrite bind_run by (apply load_some; store_lookup Hcb).
  rewrite Hprev.
  erewrite bind_run by (apply load_some; cbn; exact Hpb').
  cbn [mesh width set_moving]. rewrite Hm.
  apply Qgeb_lt in Hok. unfold overhang, delta in Hok. rewrite Hok.
  erewrite bind_run by (apply update_some; store_lookup Hcb).
  erewrite bind_run by (apply update_some; store_lookup Hcb).
  erewrite bind_run by (apply update_some; store_lookup Hcb).
  unfold createFallingPiece.
  unfold bind at 1. unfold bind at 1. unfold get at 1. cbv beta iota.
  cbn [currentBlock set_blocks set_isPlacingBlock].
  rewrite Hcur.
  erewrite bind_run by (apply load_some; store_lookup Hcb).
  unfold modify at 1. cbv beta iota.
  unfold bind at 1. unfold modify at 1. cbv beta iota.
  cbn -[Qplus Qmult Qminus Qdiv Qabs Qmax Qmin Qltb Qgeb Qopp Qinv
        lookup insert length app afterPush].
  rewrite !list_insert_insert_eq. reflexivity.
Qed.
End Placement.

(** [endGame] always completes; it sets [gameEnded] and leaves the game
    data alone. *)
Lemma endGame_effect (s : GameState) :
  (endGame s).1 = Normal tt /\
  gameEnded (endGame s).2 = true /\
  blocks (endGame s).2 = blocks s /\
  drops (endGame s).2 = drops s /\
  stack (endGame s).2 = stack s /\
  currentBlock (endGame s).2 = currentBlock s /\
  direction (endGame s).2 = direction s /\
  isPlacingBlock (endGame s).2 = isPlacingBlock s /\
  score (endGame s).2 = score s /\
  speed (endGame s).2 = speed s /\
  pendingSpawns (endGame s).2 = pendingSpawns s /\
  scoreEl (endGame s).2 = scoreEl s.
Proof.
  unfold endGame, cancelAnimationFrame. js_unfold. js_simpl.
  destruct (gameOverEl s), (finalScoreEl s), (animationId s) as [h|];
    js_simpl; try destruct (rafPending s) as [h'|]; js_simpl;
    try destruct (Pos.eqb h h'); js_simpl; repeat split; reflexivity.
Qed.

(** The tail of a successful placement: the score goes up by one; when the
    page has its [score] element, the speed goes up by [SPEED_INCREASE] and
    the spawn of the next block is scheduled. *)
Lemma afterPush_effect (s : GameState) :
  blocks (afterPush s).2 = blocks s /\
  drops (afterPush s).2 = drops s /\
  stack (afterPush s).2 = stack s /\
  currentBlock (afterPush s).2 = currentBlock s /\
  direction (afterPush s).2 = direction s /\
  gameEnded (afterPush s).2 = gameEnded s /\
  isPlacingBlock (afterPush s).2 = isPlacingBlock s /\
  score (afterPush s).2 = (score s + 1)%Z /\
  (scoreEl s <> None ->
     (afterPush s).1 = Normal tt /\
     speed (afterPush s).2 = speed s + CONFIG.SPEED_INCREASE /\
     pendingSpawns (afterPush s).2 = S (pendingSpawns s) /\
     scoreEl (afterPush s).2 = Some (Bloques (score s + 1))) /\
  (scoreEl s = None ->
     (afterPush s).1 = TypeError /\
     speed (afterPush s).2 = speed s /\
     pendingSpawns (afterPush s).2 = pendingSpawns s /\
     scoreEl (afterPush s).2 = None).
Proof.
  unfold afterPush, updateScore, increaseDifficulty. js_unfold. js_simpl.
  destruct (scoreEl s) eqn:E; js_simpl; repeat split; try reflexivity;
    try congruence; intros; try reflexivity; try exact E.
Qed.

(** C1.  A placement whose overhang [|movingPos - basePos|] is smaller than
    the width of the moving block succeeds: the block is pushed on the stack
    with width [movingWidth - overhang > 0] and centre
    [movingPos - (movingPos - basePos) / 2]; a debris mesh of width
    [overhang] is created with centre
    [keptPos + direction * (newWidth / 2 + overhang / 2)], where [direction]
    is 1 when [movingPos - basePos > 0] and -1 otherwise (so also on a
    tie). *)
Theorem placeBlock_trim (s : GameState) (cur prev : ref) (cb pb : Block) :
  currentBlock s = Some cur ->
  gameEnded s = false ->
  isPlacingBlock s = false ->
  blocks s !! cur = Some cb ->
  lastOf (stack s) = Some prev ->
  blocks s !! prev = Some pb ->
  let movingPos := position_x (mesh cb) in
  let basePos := position_x (mesh pb) in
  let movingWidth := width cb in
  let overhang := Qabs (movingPos - basePos) in
  overhang < movingWidth ->
  let s' := (placeBlock s).2 in
  exists (keptBlock : Block) (piece : Mesh) (dir : Q),
    gameEnded s' = false /\
    stack s' = stack s ++ [cur] /\
    blocks s' !! cur = Some keptBlock /\
    drops s' = piece :: drops s /\
    width keptBlock = movingWidth - overhang /\
    0 < width keptBlock /\
    position_x (mesh keptBlock) = movingPos - (movingPos - basePos) / 2 /\
    (0 < movingPos - basePos -> dir = 1) /\
    (movingPos - basePos < 0 -> dir = -1) /\
    (movingPos - basePos == 0 -> dir = -1) /\
    geometry_width piece = overhang /\
    position_x piece =
      position_x (mesh keptBlock)
      + dir * (width keptBlock / 2 + overhang / 2).
Proof.
  intros Hcur Hend Hplacing Hcb Hprev Hpb movingPos basePos movingWidth oh Hok s'.
  subst s'.
  rewrite (placeBlock_success s cur prev cb pb Hcur Hend Hplacing Hcb Hprev Hpb Hok).
  match goal with |- context [afterPush ?t] =>
    destruct (afterPush_effect t)
      as (Hb & Hd & Hs & _ & _ & He & _ & _ & _ & _)
  end.
  rewrite Hb, Hd, Hs, He. js_simpl.
  exists (kept cb pb), (debris cb pb), (blockDir cb pb).
  split; [exact Hend|]. split; [reflexivity|].
  split; [apply list_lookup_insert_eq; eapply lookup_lt_Some; exact Hcb|].
  split; [reflexivity|]. split; [reflexivity|].
  split.
  { cbn [kept width]. unfold newWidth, overhang, delta.
    subst oh movingWidth movingPos basePos.
    set (a := Qabs _) in *. clearbody a. clear - Hok. lra. }
  split; [reflexivity|].
  cbn [debris geometry_width position_x].
  unfold blockDir, delta. fold movingPos basePos.
  destruct (Qltb 0 (movingPos - basePos)) eqn:E.
  - apply Qltb_lt in E.
    repeat split; intros; try reflexivity; exfalso; lra.
  - apply Qltb_ge in E.
    repeat split; intros; try reflexivity; exfalso; lra.
Qed.

Lemma placeBlock_trim_witness :
  exists (keptBlock : Block) (piece : Mesh) (dir : Q),
    gameEnded (placeBlock (scenario 2)).2 = false /\
    stack (placeBlock (scenario 2)).2 = [0%nat; 1%nat] /\
    blocks (placeBlock (scenario 2)).2 !! 1%nat = Some keptBlock /\
    drops (placeBlock (scenario 2)).2 = [piece] /\
    width keptBlock = 3 - Qabs (2 - 0) /\
    0 < width keptBlock /\
    position_x (mesh keptBlock) = 2 - (2 - 0) / 2 /\
    (0 < 2 - 0 -> dir = 1) /\
    (2 - 0 < 0 -> dir = -1) /\
    (2 - 0 == 0 -> dir = -1) /\
    geometry_width piece = Qabs (2 - 0) /\
    position_x piece =
      position_x (mesh keptBlock)
      + dir * (width keptBlock / 2 + Qabs (2 - 0) / 2).
Proof.
  exact (placeBlock_trim (scenario 2) 1%nat 0%nat _ _
           eq_refl eq_refl eq_refl eq_refl eq_refl eq_refl eq_refl).
Defined.

(** C2.  A placement fails exactly when the overhang is at least the width
    of the moving block (a tie included).  On failure the game is ended,
    and the stack, the score, the speed, the debris and the timers are as
    before; of the blocks, only the [moving] flag of the current one is
    written. *)
Theorem placeBlock_fails_iff (s : GameState) (cur prev : ref) (cb pb : Block) :
  currentBlock s = Some cur ->
  gameEnded s = false ->
  isPlacingBlock s = false ->
  blocks s !! cur = Some cb ->
  lastOf (stack s) = Some prev ->
  blocks s !! prev = Some pb ->
  let overhang := Qabs (position_x (mesh cb) - position_x (mesh pb)) in
  let s' := (placeBlock s).2 in
  (gameEnded s' = true <-> width cb <= overhang) /\
  (width cb <= overhang ->
     (placeBlock s).1 = Normal tt /\
     stack s' = stack s /\
     score s' = score s /\
     speed s' = speed s /\
     drops s' = drops s /\
     pendingSpawns s' = pendingSpawns s /\
     blocks s' = <[cur := set_moving false cb]> (blocks s)).
Proof.
  intros Hcur Hend Hplacing Hcb Hprev Hpb oh s'.
  assert (Hfail : width cb <= oh ->
            (placeBlock s).1 = Normal tt /\ gameEnded s' = true /\
            stack s' = stack s /\ score s' = score s /\ speed s' = speed s /\
            drops s' = drops s /\ pendingSpawns s' = pendingSpawns s /\
            blocks s' = <[cur := set_moving false cb]> (blocks s)).
  { intros Hge. subst s'.
    rewrite (placeBlock_failure s cur prev cb pb Hcur Hend Hplacing Hcb Hprev Hpb Hge).
    rewrite bind_play.
    match goal with |- context [endGame ?t] =>
      destruct (endGame_effect t)
        as (H1 & H2 & H3 & H4 & H5 & _ & _ & _ & H9 & H10 & H11 & _)
    end.
    rewrite H1, H2, H3, H4, H5, H9, H10, H11. repeat split. }
  split.
  - split.
    + intros He. apply Qnot_lt_le. intros Hlt. subst s'.
      rewrite (placeBlock_success s cur prev cb pb Hcur Hend Hplacing Hcb Hprev Hpb Hlt) in He.
      match type of He with context [afterPush ?t] =>
        destruct (afterPush_effect t) as (_ & _ & _ & _ & _ & He' & _)
      end.
      rewrite He' in He. cbn in He. congruence.
    + intros Hge. apply Hfail. exact Hge.
  - intros Hge. destruct (Hfail Hge) as (H1 & _ & H). split; assumption.
Qed.

Lemma placeBlock_fails_iff_witness :
  (gameEnded (placeBlock (scenario 3)).2 = true <-> 3 <= Qabs (3 - 0)) /\
  (3 <= Qabs (3 - 0) ->
     (placeBlock (scenario 3)).1 = Normal tt /\
     stack (placeBlock (scenario 3)).2 = [0%nat] /\
     score (placeBlock (scenario 3)).2 = 0%Z /\
     speed (placeBlock (scenario 3)).2 = CONFIG.INITIAL_SPEED /\
     drops (placeBlock (scenario 3)).2 = [] /\
     pendingSpawns (placeBlock (scenario 3)).2 = 0%nat /\
     blocks (placeBlock (scenario 3)).2 =
       <[1%nat := set_moving false (mkBlock (mkMesh 3 3 3 0.5 1) 3 3 true)]>
         (blocks (scenario 3))).
Proof.
  exact (placeBlock_fails_iff (scenario 3) 1%nat 0%nat _ _
           eq_refl eq_refl eq_refl eq_refl eq_refl eq_refl).
Defined.

(** C4.  While [isPlacingBlock] is set, [placeBlock] and the input handler
    return at once and leave the whole state as it is; in particular nothing
    is queued for later. *)
Theorem placeBlock_while_placing (s : GameState) (e : InputEvent) :
  isPlacingBlock s = true ->
  placeBlock s = (Normal tt, s) /\ handleInput e s = (Normal tt, s).
Proof.
  intros H.
  assert (Hp : placeBlock s = (Normal tt, s)).
  { apply placeBlock_disabled. unfold placeBlock_enabled.
    rewrite H. destruct (currentBlock s); [|reflexivity].
    apply andb_false_r. }
  split; [exact Hp|].
  destruct e as [code| |]; unfold handleInput;
    [destruct (String.eqb code "Space"); [|reflexivity]|..];
    cbn [negb]; rewrite bind_get, H, andb_false_r; reflexivity.
Qed.

Lemma placeBlock_while_placing_witness :
  placeBlock (placeBlock (scenario 2)).2 = (Normal tt, (placeBlock (scenario 2)).2) /\
  handleInput mousedown (placeBlock (scenario 2)).2
    = (Normal tt, (placeBlock (scenario 2)).2).
Proof.
  exact (placeBlock_while_placing (placeBlock (scenario 2)).2 mousedown eq_refl).
Defined.

(** ** Spawning ([addNewMovingBlock]) *)

Lemma addNewMovingBlock_run (s : GameState) (top : ref) (tb : Block) :
  lastOf (stack s) = Some top ->
  blocks s !! top = Some tb ->
  addNewMovingBlock s =
    (Normal (length (blocks s)),
     set_isPlacingBlock false
       (set_currentBlock (Some (length (blocks s)))
          (set_blocks (blocks s ++ [spawned tb (len (stack s))]) s))).
Proof.
  intros Htop Htb. unfold addNewMovingBlock, addBlock. js_unfold.
  rewrite Htop, Htb. reflexivity.
Qed.

Lemma addNewMovingBlock_empty (s : GameState) :
  stack s = [] -> addNewMovingBlock s = (TypeError, s).
Proof.
  intros H. unfold addNewMovingBlock. js_unfold. rewrite H. reflexivity.
Qed.

(** C7, as the code has it.  [addNewMovingBlock] makes a new moving block
    with the width and depth of the top of the stack, at [x = -BOUNDS] and
    height [stack.length * BOX_HEIGHT], makes it the current block and clears
    [isPlacingBlock].  It does so whether or not a current block exists: the
    new block is a fresh object that takes the place of the current one; the
    other blocks and the stack are not changed. *)
Theorem addNewMovingBlock_spawn (s : GameState) (top : ref) (tb : Block) :
  lastOf (stack s) = Some top ->
  blocks s !! top = Some tb ->
  let s' := (addNewMovingBlock s).2 in
  exists (r : ref) (nb : Block),
    (addNewMovingBlock s).1 = Normal r /\
    currentBlock s' = Some r /\
    blocks s !! r = None /\
    blocks s' !! r = Some nb /\
    (forall r', r' <> r -> blocks s' !! r' = blocks s !! r') /\
    width nb = width tb /\
    depth nb = depth tb /\
    position_x (mesh nb) = - CONFIG.BOUNDS /\
    position_y (mesh nb) = len (stack s) * CONFIG.BOX_HEIGHT /\
    moving nb = true /\
    isPlacingBlock s' = false /\
    stack s' = stack s.
Proof.
  intros Htop Htb s'. subst s'.
  rewrite (addNewMovingBlock_run s top tb Htop Htb). js_simpl.
  exists (length (blocks s)), (spawned tb (len (stack s))).
  split; [reflexivity|]. split; [reflexivity|].
  split; [apply lookup_ge_None_2; lia|].
  split.
  { rewrite lookup_app_r by lia. rewrite Nat.sub_diag. reflexivity. }
  split.
  { intros r' Hne. destruct (decide (r' < length (blocks s))%nat) as [Hlt|Hge].
    - rewrite lookup_app_l by exact Hlt. reflexivity.
    - rewrite lookup_app_r by lia.
      rewrite (lookup_ge_None_2 (blocks s) r') by lia.
      destruct (r' - length (blocks s))%nat eqn:E; [lia|reflexivity]. }
  repeat split.
Qed.

Lemma addNewMovingBlock_spawn_witness :
  activeMoving (scenario 2) = true /\
  exists (r : ref) (nb : Block),
    (addNewMovingBlock (scenario 2)).1 = Normal r /\
    currentBlock (addNewMovingBlock (scenario 2)).2 = Some r /\
    blocks (scenario 2) !! r = None /\
    blocks (addNewMovingBlock (scenario 2)).2 !! r = Some nb /\
    (forall r', r' <> r ->
       blocks (addNewMovingBlock (scenario 2)).2 !! r'
       = blocks (scenario 2) !! r') /\
    width nb = 3 /\
    depth nb = 3 /\
    position_x (mesh nb) = - CONFIG.BOUNDS /\
    position_y (mesh nb) = len [0%nat] * CONFIG.BOX_HEIGHT /\
    moving nb = true /\
    isPlacingBlock (addNewMovingBlock (scenario 2)).2 = false /\
    stack (addNewMovingBlock (scenario 2)).2 = [0%nat].
Proof.
  split; [reflexivity|].
  exact (addNewMovingBlock_spawn (scenario 2) 0%nat _ eq_refl eq_refl).
Defined.

(** C7, as stated, at the state right after [init]: an active block exists,
    yet [addNewMovingBlock] completes and replaces it. *)
Lemma addNewMovingBlock_active_counterexample :
  activeMoving (started 0) = true /\
  currentBlock (started 0) = Some 1%nat /\
  (addNewMovingBlock (started 0)).1 = Normal 2%nat /\
  (addNewMovingBlock (started 0)).1 <> TypeError /\
  currentBlock (addNewMovingBlock (started 0)).2 = Some 2%nat.
Proof.
  repeat split; try reflexivity. discriminate.
Qed.

(** ** The frame loop ([animate], [updateGame]) *)

(** [animate] requests the next frame, records the time and updates the
    game with the normalised step. *)
Lemma animate_run (s : GameState) (currentTime : Q) :
  animate currentTime s =
    updateGame (Qmin (currentTime - lastTime s) 100 / 16.67)
      (set_lastTime currentTime
         (set_animationId (Some (rafNext s))
            (set_rafPending (Some (rafNext s))
               (set_rafNext (Pos.succ (rafNext s)) s)))).
Proof. reflexivity. Qed.

(** C8.  [animate] passes to [updateGame] the elapsed time, capped at 100,
    divided by 16.67; this step is at most [100 / 16.67] whatever the
    elapsed time. *)
Theorem animate_deltaTime (s : GameState) (currentTime : Q) :
  let elapsed := currentTime - lastTime s in
  let deltaTime := Qmin elapsed 100 / 16.67 in
  animate currentTime s =
    updateGame deltaTime
      (set_lastTime currentTime
         (set_animationId (Some (rafNext s))
            (set_rafPending (Some (rafNext s))
               (set_rafNext (Pos.succ (rafNext s)) s)))) /\
  (elapsed <= 100 -> deltaTime == elapsed / 16.67) /\
  (100 <= elapsed -> deltaTime == 100 / 16.67) /\
  deltaTime <= 100 / 16.67.
Proof.
  intros elapsed deltaTime. split; [apply animate_run|].
  assert (Hpos : 0 <= / 16.67) by (vm_compute; discriminate).
  subst deltaTime. unfold Qdiv. repeat split.
  - intros H. rewrite (proj2 (Q.min_l_iff elapsed 100) H). reflexivity.
  - intros H. rewrite (proj2 (Q.min_r_iff elapsed 100) H). reflexivity.
  - apply Qmult_le_compat_r; [apply Q.le_min_r|exact Hpos].
Qed.

(** A block that is not moving, or no block at all, is left where it is. *)
Lemma moveCurrentBlock_idle (s : GameState) (dt : Q) :
  gameEnded s = true \/ activeMoving s = false ->
  (moveCurrentBlock dt s).2 = s.
Proof.
  unfold activeMoving, moveCurrentBlock. js_unfold.
  destruct (currentBlock s) as [cur|]; [|reflexivity].
  destruct (blocks s !! cur) as [cb|]; [|reflexivity].
  intros [H|H]; rewrite H; [rewrite orb_true_r|]; reflexivity.
Qed.

(** [updateCamera] writes the camera only. *)
Lemma updateCamera_effect (s : GameState) (dt : Q) :
  exists c, (updateCamera dt s).2 = set_camera c s.
Proof.
  unfold updateCamera. js_unfold.
  destruct (stack s); [exists (camera s); destruct s; reflexivity|].
  destruct (camera s) as [y|] eqn:E.
  - match goal with |- context [Qltb ?a ?b] => destruct (Qltb a b) end.
    + eexists. reflexivity.
    + exists (Some y). rewrite <- E. destruct s; reflexivity.
  - exists None. rewrite <- E. destruct s; reflexivity.
Qed.

Lemma updateGame_idle (s : GameState) (dt : Q) :
  gameEnded s = true \/ activeMoving s = false ->
  exists c, (updateGame dt s).2 = set_camera c s.
Proof.
  intros H. unfold updateGame. rewrite bind_get.
  pose proof (moveCurrentBlock_idle s dt H) as Hm. clear H.
  destruct (gameEnded s) eqn:E.
  { exists (camera s). destruct s; reflexivity. }
  unfold bind. destruct (moveCurrentBlock dt s) as [[[]|] s1]; cbn in Hm; subst s1.
  - apply updateCamera_effect.
  - exists (camera s). destruct s; reflexivity.
Qed.

(** Spawning does not touch [gameEnded]. *)
Lemma addNewMovingBlock_gameEnded (s : GameState) :
  gameEnded (addNewMovingBlock s).2 = gameEnded s.
Proof.
  unfold addNewMovingBlock, addBlock. js_unfold.
  destruct (lastOf (stack s)) as [top|]; [|reflexivity].
  destruct (blocks s !! top); reflexivity.
Qed.

(** Once the game has ended, no handler changes [gameEnded] back. *)
Lemma step_ended (ev : Event) (s : GameState) :
  gameEnded s = true -> gameEnded (step ev s) = true.
Proof.
  intros H. unfold step. destruct ev as [t|e| |]; cbn [dispatch].
  - rewrite bind_get. destruct (rafPending s); [|exact H].
    rewrite bind_modify.
    rewrite animate_run.
    unfold updateGame. rewrite bind_get. cbn. rewrite H. exact H.
  - destruct e as [code| |]; unfold handleInput;
      [destruct (String.eqb code "Space"); [|exact H]|..];
      cbn [negb]; rewrite bind_get, H; exact H.
  - rewrite bind_get. destruct (pendingSpawns s); [exact H|].
    rewrite bind_modify. unfold spawnCallback. rewrite bind_get.
    cbn. rewrite H. exact H.
  - apply endGame_effect.
Qed.

Lemma run_ended (evs : list Event) (s : GameState) :
  gameEnded s = true -> gameEnded (run evs s) = true.
Proof.
  revert s. induction evs as [|ev evs IH]; intros s H; [exact H|].
  cbn. apply IH. apply step_ended. exact H.
Qed.

(** C5.  [gameEnded] is terminal: from a state in which it is set, no event
    (frame, input, spawn timer, termination) and no sequence of events
    resets it, and neither does a direct call of [placeBlock],
    [addNewMovingBlock] or [endGame].
    While the game has ended or no current block is moving, a frame moves
    nothing: the blocks, the current block and the direction stay as they
    are. *)
Theorem gameEnded_terminal (s : GameState) :
  (gameEnded s = true ->
     (forall ev, gameEnded (step ev s) = true) /\
     (forall evs, gameEnded (run evs s) = true) /\
     gameEnded (placeBlock s).2 = true /\
     gameEnded (addNewMovingBlock s).2 = true /\
     gameEnded (endGame s).2 = true) /\
  (gameEnded s = true \/ activeMoving s = false ->
     forall t,
       blocks (animate t s).2 = blocks s /\
       currentBlock (animate t s).2 = currentBlock s /\
       direction (animate t s).2 = direction s /\
       gameEnded (animate t s).2 = gameEnded s).
Proof.
  split.
  - intros H. split; [intros ev; apply step_ended; exact H|].
    split; [intros evs; apply run_ended; exact H|].
    split; [|split; [rewrite addNewMovingBlock_gameEnded; exact H
                    |apply endGame_effect]].
    rewrite placeBlock_disabled; [exact H|].
    unfold placeBlock_enabled. rewrite H. destruct (currentBlock s); reflexivity.
  - intros H t. rewrite animate_run.
    match goal with |- context [updateGame ?d ?u] =>
      destruct (updateGame_idle u d) as [c Hc]; [exact H|]
    end.
    rewrite Hc. repeat split.
Qed.

Lemma gameEnded_terminal_witness :
  (forall ev, gameEnded (step ev (placeBlock (scenario 3)).2) = true) /\
  (forall t,
     blocks (animate t (placeBlock (scenario 2)).2).2
       = blocks (placeBlock (scenario 2)).2 /\
     direction (animate t (placeBlock (scenario 2)).2).2 = 1).
Proof.
  split.
  - exact (proj1 (proj1 (gameEnded_terminal (placeBlock (scenario 3)).2) eq_refl)).
  - intros t.
    destruct (proj2 (gameEnded_terminal (placeBlock (scenario 2)).2)
                (or_intror eq_refl) t) as (Hb & _ & Hd & _).
    split; [exact Hb|exact Hd].
Defined.

(** ** What the handlers leave alone *)

Lemma same_game_refl (s : GameState) : same_game s s.
Proof. repeat split. Qed.

Lemma same_game_trans (s1 s2 s3 : GameState) :
  same_game s1 s2 -> same_game s2 s3 -> same_game s1 s3.
Proof.
  unfold same_game.
  intros (A1 & A2 & A3 & A4 & A5 & A6 & A7 & A8 & A9)
         (B1 & B2 & B3 & B4 & B5 & B6 & B7 & B8 & B9).
  repeat split; congruence.
Qed.

(** Writing a block with the same width keeps the list of widths. *)
Lemma widths_insert (l : list Block) (r : ref) (b b' : Block) :
  l !! r = Some b -> width b' = width b ->
  width <$> <[r := b']> l = width <$> l.
Proof.
  intros Hl Hw. rewrite list_fmap_insert, Hw.
  apply list_insert_id. rewrite list_lookup_fmap, Hl. reflexivity.
Qed.

Lemma moveCurrentBlock_same_game (s : GameState) (dt : Q) :
  same_game s (moveCurrentBlock dt s).2.
Proof.
  destruct (gameEnded s) eqn:Hend.
  { rewrite moveCurrentBlock_idle by (left; exact Hend). apply same_game_refl. }
  destruct (activeMoving s) eqn:Hact.
  2:{ rewrite moveCurrentBlock_idle by (right; exact Hact). apply same_game_refl. }
  unfold activeMoving in Hact.
  destruct (currentBlock s) as [cur|] eqn:Hcur; [|discriminate].
  destruct (blocks s !! cur) as [cb|] eqn:Hcb; [|discriminate].
  rewrite (moveCurrentBlock_moving s cur cb dt Hcur Hcb Hact Hend).
  cbn [snd].
  match goal with |- context [Qltb ?a ?b] => destruct (Qltb a b) end;
    unfold same_game; js_simpl; repeat split.
  - rewrite list_insert_insert_eq. eapply widths_insert; [exact Hcb|reflexivity].
  - eapply widths_insert; [exact Hcb|reflexivity].
Qed.

Lemma updateGame_same_game (s : GameState) (dt : Q) :
  same_game s (updateGame dt s).2.
Proof.
  unfold updateGame. rewrite bind_get.
  destruct (gameEnded s); [apply same_game_refl|].
  pose proof (moveCurrentBlock_same_game s dt) as Hm.
  unfold bind. destruct (moveCurrentBlock dt s) as [[[]|] s1]; cbn [snd] in *.
  - destruct (updateCamera_effect s1 dt) as [c ->].
    eapply same_game_trans; [exact Hm|]. repeat split.
  - exact Hm.
Qed.

Lemma frame_same_game (s : GameState) (t : Q) :
  same_game s (step (Frame t) s).
Proof.
  unfold step. cbn [dispatch]. rewrite bind_get.
  destruct (rafPending s); [|apply same_game_refl].
  rewrite bind_modify, animate_run.
  eapply same_game_trans; [|apply updateGame_same_game]. repeat split.
Qed.

(** The spawn timer changes neither the score nor the speed. *)
Lemma spawnCallback_effect (s : GameState) :
  let s' := (spawnCallback s).2 in
  stack s' = stack s /\ score s' = score s /\ speed s' = speed s /\
  scoreEl s' = scoreEl s /\ gameEnded s' = gameEnded s.
Proof.
  unfold spawnCallback. rewrite bind_get.
  destruct (gameEnded s) eqn:E; [cbn; rewrite E; repeat split|].
  unfold addNewMovingBlock, addBlock. js_unfold.
  destruct (lastOf (stack s)) as [top|]; [|cbn; rewrite E; repeat split].
  destruct (blocks s !! top); cbn; rewrite E; repeat split.
Qed.

(** ** Placement in an arbitrary state *)

Lemma placeBlock_dangling (s : GameState) (cur : ref) :
  currentBlock s = Some cur ->
  gameEnded s = false ->
  isPlacingBlock s = false ->
  blocks s !! cur = None ->
  placeBlock s = (TypeError, set_isPlacingBlock true s).
Proof.
  intros Hcur Hend Hpl Hcb. unfold placeBlock. rewrite bind_get.
  rewrite Hcur, Hend, Hpl. cbn [orb]. rewrite bind_modify.
  apply bind_throw. unfold update. cbn. rewrite Hcb. reflexivity.
Qed.

Lemma placeBlock_no_prev (s : GameState) (cur : ref) (cb : Block) :
  currentBlock s = Some cur ->
  gameEnded s = false ->
  isPlacingBlock s = false ->
  blocks s !! cur = Some cb ->
  (forall prev, lastOf (stack s) = Some prev -> blocks s !! prev = None) ->
  placeBlock s =
    (TypeError,
     set_blocks (<[cur := set_moving false cb]> (blocks s))
       (set_isPlacingBlock true s)).
Proof.
  intros Hcur Hend Hpl Hcb Hprev. unfold placeBlock. rewrite bind_get.
  rewrite Hcur, Hend, Hpl. cbn [orb]. rewrite bind_modify.
  erewrite bind_run by (apply update_some; exact Hcb).
  erewrite bind_run by (apply load_some; store_lookup Hcb).
  apply bind_throw. unfold load. cbn [blocks set_blocks].
  destruct (lastOf (stack s)) as [prev|]; [|reflexivity].
  rewrite (proj2 (list_lookup_insert_None _ _ _ _) (Hprev prev eq_refl)).
  reflexivity.
Qed.

(** A call of [placeBlock] either is a successful placement, which pushes
    the current block and goes on with [afterPush], or leaves the stack, the
    score, the speed and the page as they are. *)
Lemma placeBlock_cases (s : GameState) :
  (placement_succeeds s = true /\
   exists cur cb pb,
     currentBlock s = Some cur /\
     placeBlock s =
       afterPush
         (set_stack (stack s ++ [cur])
            (set_drops (debris cb pb :: drops s)
               (set_blocks (<[cur := kept cb pb]> (blocks s))
                  (set_isPlacingBlock true s))))) \/
  (placement_succeeds s = false /\
   stack (placeBlock s).2 = stack s /\
   score (placeBlock s).2 = score s /\
   speed (placeBlock s).2 = speed s /\
   scoreEl (placeBlock s).2 = scoreEl s).
Proof.
  unfold placement_succeeds.
  destruct (placeBlock_enabled s) eqn:Hen.
  2:{ right. rewrite (placeBlock_disabled s Hen). repeat split. }
  unfold placeBlock_enabled in Hen.
  destruct (currentBlock s) as [cur|] eqn:Hcur; [|discriminate].
  apply andb_true_iff in Hen. destruct Hen as [Hend Hpl].
  apply negb_true_iff in Hend. apply negb_true_iff in Hpl.
  cbn [andb].
  destruct (blocks s !! cur) as [cb|] eqn:Hcb.
  2:{ right. rewrite (placeBlock_dangling s cur Hcur Hend Hpl Hcb).
      destruct (lastOf (stack s)); repeat split. }
  destruct (lastOf (stack s)) as [prev|] eqn:Hprev.
  2:{ right. rewrite (placeBlock_no_prev s cur cb Hcur Hend Hpl Hcb)
        by (intros prev; rewrite Hprev; discriminate).
      repeat split. }
  destruct (blocks s !! prev) as [pb|] eqn:Hpb.
  2:{ right. rewrite (placeBlock_no_prev s cur cb Hcur Hend Hpl Hcb)
        by (intros prev'; rewrite Hprev; intros [= <-]; exact Hpb).
      repeat split. }
  destruct (Qltb (overhang cb pb) (width cb)) eqn:Hlt.
  - left. apply Qltb_lt in Hlt. split; [reflexivity|].
    exists cur, cb, pb. split; [reflexivity|].
    apply (placeBlock_success s cur prev cb pb Hcur Hend Hpl Hcb Hprev Hpb Hlt).
  - right. apply Qltb_ge in Hlt. split; [reflexivity|].
    rewrite (placeBlock_failure s cur prev cb pb Hcur Hend Hpl Hcb Hprev Hpb Hlt).
    rewrite bind_play.
    match goal with |- context [endGame ?t] =>
      destruct (endGame_effect t)
        as (_ & _ & _ & _ & Hst & _ & _ & _ & Hsc & Hsp & _ & Hel)
    end.
    rewrite Hst, Hsc, Hsp, Hel. repeat split.
Qed.

(** The score and the speed across a call of [placeBlock]. *)
Lemma placeBlock_score_speed (s : GameState) :
  let s' := (placeBlock s).2 in
  (placement_succeeds s = true ->
     score s' = (score s + 1)%Z /\
     (scoreEl s <> None ->
        speed s' = speed s + CONFIG.SPEED_INCREASE /\ scoreEl s' <> None) /\
     (scoreEl s = None -> speed s' = speed s /\ scoreEl s' = None)) /\
  (placement_succeeds s = false ->
     score s' = score s /\ speed s' = speed s /\ scoreEl s' = scoreEl s).
Proof.
  cbv zeta.
  destruct (placeBlock_cases s)
    as [(-> & cur & cb & pb & _ & ->)|(-> & _ & Hsc & Hsp & Hel)].
  - split; [intros _|discriminate].
    match goal with |- context [afterPush ?t] =>
      destruct (afterPush_effect t)
        as (_ & _ & _ & _ & _ & _ & _ & Hsc & Hsome & Hnone)
    end.
    split; [exact Hsc|]. split.
    + intros Hel. destruct (Hsome Hel) as (_ & Hsp & _ & Hel').
      split; [exact Hsp|]. rewrite Hel'. discriminate.
    + intros Hel. destruct (Hnone Hel) as (_ & Hsp & _ & Hel').
      split; [exact Hsp|exact Hel'].
  - split; [discriminate|intros _]. repeat split; assumption.
Qed.

(** A placement succeeds exactly when it pushes a block on the stack. *)
Lemma placement_succeeds_iff_push (s : GameState) :
  placement_succeeds s = true <->
  length (stack (placeBlock s).2) = S (length (stack s)).
Proof.
  destruct (placeBlock_cases s)
    as [(-> & cur & cb & pb & _ & ->)|(-> & Hst & _)].
  - match goal with |- context [afterPush ?t] =>
      destruct (afterPush_effect t) as (_ & _ & -> & _)
    end.
    cbn [stack set_stack]. rewrite length_app. cbn [length].
    split; [intros _; lia|reflexivity].
  - rewrite Hst. split; [discriminate|lia].
Qed.

Lemma handleInput_run (e : InputEvent) (s : GameState) :
  handleInput e s = if accepted e then placeBlock s else (Normal tt, s).
Proof.
  assert (H : (if negb (gameEnded s) && negb (isPlacingBlock s)
               then placeBlock else ret tt) s = placeBlock s).
  { destruct (negb (gameEnded s) && negb (isPlacingBlock s)) eqn:E;
      [reflexivity|]. unfold ret.
    symmetry. apply placeBlock_disabled. unfold placeBlock_enabled.
    rewrite E. destruct (currentBlock s); reflexivity. }
  destruct e as [code| |]; cbn [accepted]; unfold handleInput;
    [destruct (String.eqb code "Space"); [|reflexivity]|..];
    cbn [negb]; rewrite bind_get; exact H.
Qed.

(** The score and the speed across one event. *)
Lemma step_score_speed (ev : Event) (s : GameState) :
  (succeeds ev s = true ->
     score (step ev s) = (score s + 1)%Z /\
     (scoreEl s <> None ->
        speed (step ev s) = speed s + CONFIG.SPEED_INCREASE /\
        scoreEl (step ev s) <> None) /\
     (scoreEl s = None -> speed (step ev s) = speed s)) /\
  (succeeds ev s = false ->
     score (step ev s) = score s /\ speed (step ev s) = speed s /\
     scoreEl (step ev s) = scoreEl s).
Proof.
  destruct ev as [t|e| |]; cbn [succeeds].
  - split; [discriminate|intros _].
    destruct (frame_same_game s t) as (_ & _ & _ & _ & H5 & H6 & H7 & _).
    repeat split; assumption.
  - unfold step. cbn [dispatch]. rewrite handleInput_run.
    destruct (accepted e); cbn [andb].
    + destruct (placeBlock_score_speed s) as [Hs Hf]. split.
      * intros H. destruct (Hs H) as (H1 & H2 & H3).
        split; [exact H1|]. split; [exact H2|]. intros Hel. apply H3. exact Hel.
      * exact Hf.
    + split; [discriminate|]. intros _. repeat split.
  - split; [discriminate|intros _]. unfold step. cbn [dispatch].
    rewrite bind_get. destruct (pendingSpawns s); [repeat split|].
    rewrite bind_modify.
    match goal with |- context [spawnCallback ?u] =>
      destruct (spawnCallback_effect u) as (_ & H2 & H3 & H4 & _)
    end.
    repeat split; assumption.
  - split; [discriminate|intros _]. unfold step. cbn [dispatch].
    destruct (endGame_effect s)
      as (_ & _ & _ & _ & _ & _ & _ & _ & Hsc & Hsp & _ & Hel).
    repeat split; assumption.
Qed.

(** An event is a successful placement exactly when it pushes a block on
    the stack. *)
Lemma succeeds_iff_push (ev : Event) (s : GameState) :
  succeeds ev s = true <->
  length (stack (step ev s)) = S (length (stack s)).
Proof.
  destruct ev as [t|e| |]; cbn [succeeds].
  - destruct (frame_same_game s t) as (-> & _). split; [discriminate|lia].
  - unfold step. cbn [dispatch]. rewrite handleInput_run.
    destruct (accepted e); cbn [andb].
    + apply placement_succeeds_iff_push.
    + cbn. split; [discriminate|lia].
  - unfold step. cbn [dispatch]. rewrite bind_get.
    destruct (pendingSpawns s); [cbn; split; [discriminate|lia]|].
    rewrite bind_modify.
    match goal with |- context [spawnCallback ?u] =>
      destruct (spawnCallback_effect u) as (-> & _)
    end.
    cbn. split; [discriminate|lia].
  - unfold step. cbn [dispatch].
    destruct (endGame_effect s) as (_ & _ & _ & _ & -> & _).
    split; [discriminate|lia].
Qed.

(** ** Score and difficulty *)


(** The score counts the successful placements, and the speed is the
    initial one after as many additions of [SPEED_INCREASE]. *)
Lemma run_score_speed (evs : list Event) (s : GameState) :
  scoreEl s <> None ->
  score (run evs s) = (score s + Z.of_nat (placements evs s))%Z /\
  speed (run evs s) =
    Nat.iter (placements evs s) (fun v => v + CONFIG.SPEED_INCREASE) (speed s) /\
  scoreEl (run evs s) <> None.
Proof.
  revert s. induction evs as [|ev evs IH]; intros s Hel.
  - cbn [run foldl placements Z.of_nat Nat.iter nat_rect].
    split; [lia|]. split; [reflexivity|exact Hel].
  - cbn [run foldl placements]. fold (run evs (step ev s)).
    destruct (step_score_speed ev s) as [Hs Hf].
    destruct (succeeds ev s).
    + destruct (Hs eq_refl) as (Hsc & Hsome & _).
      destruct (Hsome Hel) as [Hsp Hel'].
      destruct (IH (step ev s) Hel') as (I1 & I2 & I3).
      split; [rewrite I1, Hsc; lia|]. split; [|exact I3].
      rewrite I2, Hsp. symmetry.
      exact (Nat.iter_succ_r (placements evs (step ev s))
               (fun v => v + CONFIG.SPEED_INCREASE) (speed s)).
    + destruct (Hf eq_refl) as (Hsc & Hsp & Hel').
      destruct (IH (step ev s)) as (I1 & I2 & I3); [rewrite Hel'; exact Hel|].
      split; [rewrite I1, Hsc; lia|]. split; [|exact I3].
      rewrite I2, Hsp. reflexivity.
Qed.

(** ** The stack narrows upwards *)

Lemma bwidth_lookup (s : GameState) (r : ref) (w : Q) :
  bwidth s r = Some w <-> exists b, blocks s !! r = Some b /\ width b = w.
Proof.
  unfold bwidth. rewrite list_lookup_fmap.
  destruct (blocks s !! r) as [b|]; cbn; split.
  - intros [= <-]. exists b. split; reflexivity.
  - intros (b' & [= <-] & <-). reflexivity.
  - discriminate.
  - intros (b' & Hb & _). discriminate.
Qed.

Lemma bwidth_insert (s : GameState) (l : list Block) (cur r : ref) (b : Block) :
  (cur < length (blocks s))%nat ->
  bwidth (set_blocks (<[cur := b]> (blocks s)) s) r =
    if decide (cur = r) then Some (width b) else bwidth s r.
Proof.
  intros Hlt. unfold bwidth. cbn [blocks set_blocks].
  rewrite !list_lookup_fmap, list_lookup_insert.
  destruct (decide (cur = r)) as [->|Hne].
  - rewrite decide_True by (split; [reflexivity|exact Hlt]). reflexivity.
  - rewrite decide_False by (intros [? _]; contradiction). reflexivity.
Qed.

Lemma stack_ok_ext (s s' : GameState) :
  stack s' = stack s ->
  (forall r, r ∈ stack s -> bwidth s' r = bwidth s r) ->
  stack_ok s -> stack_ok s'.
Proof.
  intros Hst Hw [Hpos Hsorted]. split.
  - intros r Hr. rewrite Hst in Hr. rewrite (Hw r Hr). apply Hpos. exact Hr.
  - intros i r r' w w' Hi Hi' Hbw Hbw'. rewrite Hst in Hi, Hi'.
    rewrite Hw in Hbw by (eapply list_elem_of_lookup_2; exact Hi).
    rewrite Hw in Hbw' by (eapply list_elem_of_lookup_2; exact Hi').
    exact (Hsorted i r r' w w' Hi Hi' Hbw Hbw').
Qed.

Lemma lastOf_lookup {A} (l : list A) (i : nat) (x y : A) :
  l !! i = Some x -> S i = length l -> lastOf l = Some y -> x = y.
Proof.
  unfold lastOf. intros Hi Hlen Hl.
  replace (length l - 1)%nat with i in Hl by lia. congruence.
Qed.

Lemma stack_ok_push (s s' : GameState) (cur top : ref) (w tw : Q) :
  stack s' = stack s ++ [cur] ->
  (forall r, r ∈ stack s -> bwidth s' r = bwidth s r) ->
  lastOf (stack s) = Some top ->
  bwidth s top = Some tw ->
  bwidth s' cur = Some w ->
  0 < w -> w <= tw ->
  stack_ok s -> stack_ok s'.
Proof.
  intros Hst Hw Htop Htw Hcur Hpos Hle [Hp Hsorted]. split.
  - intros r Hr. rewrite Hst in Hr. apply elem_of_app in Hr.
    destruct Hr as [Hr|Hr].
    + rewrite (Hw r Hr). apply Hp. exact Hr.
    + apply list_elem_of_singleton in Hr. subst r. exists w. split; assumption.
  - intros i r r' x x' Hi Hi' Hbw Hbw'. rewrite Hst in Hi, Hi'.
    apply lookup_snoc_Some in Hi'. destruct Hi' as [[Hlt Hi']|[Hlen <-]].
    + rewrite lookup_app_l in Hi by lia.
      rewrite Hw in Hbw by (eapply list_elem_of_lookup_2; exact Hi).
      rewrite Hw in Hbw' by (eapply list_elem_of_lookup_2; exact Hi').
      exact (Hsorted i r r' x x' Hi Hi' Hbw Hbw').
    + rewrite lookup_app_l in Hi by lia.
      assert (r = top) as -> by (eapply lastOf_lookup; eassumption).
      rewrite Hw in Hbw by (eapply list_elem_of_lookup_2; exact Hi).
      assert (x = tw) as -> by congruence.
      assert (x' = w) as -> by congruence.
      exact Hle.
Qed.

Lemma Inv_same_shape (s s' : GameState) :
  same_shape s s' -> Inv s -> Inv s'.
Proof.
  intros (Hst & Hcur & Hpl & Hw) (Hne & Hok & Hready).
  assert (Hbw : forall r, bwidth s' r = bwidth s r)
    by (intros r; unfold bwidth; rewrite Hw; reflexivity).
  split; [rewrite Hst; exact Hne|]. split.
  - eapply stack_ok_ext; [exact Hst| |exact Hok]. intros r _. apply Hbw.
  - intros Hpl' cur Hc. rewrite Hpl in Hpl'. rewrite Hcur in Hc.
    destruct (Hready Hpl' cur Hc) as (Hnin & w & top & tw & H1 & H2 & H3 & H4).
    rewrite Hst. split; [exact Hnin|].
    exists w, top, tw. rewrite !Hbw. repeat split; assumption.
Qed.

Lemma same_game_shape (s s' : GameState) : same_game s s' -> same_shape s s'.
Proof.
  intros (H1 & H2 & H3 & _ & _ & _ & _ & _ & H9). repeat split; assumption.
Qed.

(** While a placement is in flight nothing is required of the current
    block. *)
Lemma Inv_placing (s s' : GameState) :
  stack s' = stack s ->
  isPlacingBlock s' = true ->
  (forall r, r ∈ stack s -> bwidth s' r = bwidth s r) ->
  Inv s -> Inv s'.
Proof.
  intros Hst Hpl Hw (Hne & Hok & _).
  split; [rewrite Hst; exact Hne|]. split.
  - eapply stack_ok_ext; eassumption.
  - intros Hpl'. congruence.
Qed.

Lemma Inv_spawn (s : GameState) : Inv s -> Inv (addNewMovingBlock s).2.
Proof.
  intros (Hne & Hok & Hready).
  destruct (lastOf (stack s)) as [top|] eqn:Htop.
  2:{ unfold lastOf in Htop. apply lookup_ge_None in Htop.
      destruct (stack s); [contradiction|cbn in Htop; lia]. }
  assert (Hin : top ∈ stack s) by (eapply list_elem_of_lookup_2; exact Htop).
  destruct (proj1 Hok top Hin) as (tw & Htw & Hpos).
  destruct (proj1 (bwidth_lookup s top tw) Htw) as (tb & Htb & <-).
  rewrite (addNewMovingBlock_run s top tb Htop Htb). cbn [snd].
  set (s' := set_isPlacingBlock _ _).
  assert (Hold : forall r, r ∈ stack s -> bwidth s' r = bwidth s r).
  { intros r Hr. destruct (proj1 Hok r Hr) as (w & Hw & _).
    unfold bwidth in *. subst s'. cbn [blocks set_blocks set_isPlacingBlock set_currentBlock].
    rewrite fmap_app, lookup_app_l; [reflexivity|].
    eapply lookup_lt_Some. exact Hw. }
  split; [exact Hne|]. split.
  - apply (stack_ok_ext s s'); [reflexivity|exact Hold|exact Hok].
  - intros _ cur [= <-]. split.
    + intros Hmem. destruct (proj1 Hok _ Hmem) as (w & Hw & _).
      unfold bwidth in Hw. apply lookup_lt_Some in Hw.
      rewrite length_fmap in Hw. lia.
    + exists (width tb), top, (width tb).
      split; [|split; [exact Htop|split; [rewrite Hold by exact Hin; exact Htw|lra]]].
      unfold bwidth. subst s'. cbn [blocks set_blocks set_isPlacingBlock set_currentBlock].
      rewrite fmap_app, lookup_app_r by (rewrite length_fmap; lia).
      rewrite length_fmap, Nat.sub_diag. reflexivity.
Qed.

Lemma Inv_placeBlock (s : GameState) : Inv s -> Inv (placeBlock s).2.
Proof.
  intros HI. destruct (placeBlock_enabled s) eqn:Hen.
  2:{ rewrite (placeBlock_disabled s Hen). exact HI. }
  unfold placeBlock_enabled in Hen.
  destruct (currentBlock s) as [cur|] eqn:Hcur; [|discriminate].
  apply andb_true_iff in Hen. destruct Hen as [Hend Hpl].
  apply negb_true_iff in Hend. apply negb_true_iff in Hpl.
  destruct HI as (Hne & Hok & Hready).
  destruct (Hready Hpl cur Hcur) as (Hnin & w & top & tw & Hw & Htop & Htw & Hle).
  destruct (proj1 (bwidth_lookup s cur w) Hw) as (cb & Hcb & <-).
  destruct (proj1 (bwidth_lookup s top tw) Htw) as (pb & Hpb & <-).
  assert (Hlt : (cur < length (blocks s))%nat) by (eapply lookup_lt_Some; exact Hcb).
  assert (Hother : forall b r, r ∈ stack s ->
            bwidth (set_blocks (<[cur := b]> (blocks s)) s) r = bwidth s r).
  { intros b r Hr. rewrite (bwidth_insert s (blocks s) cur r b Hlt).
    destruct (decide (cur = r)) as [->|]; [contradiction|reflexivity]. }
  destruct (Qlt_le_dec (overhang cb pb) (width cb)) as [Hsucc|Hfail].
  - rewrite (placeBlock_success s cur top cb pb Hcur Hend Hpl Hcb Htop Hpb Hsucc).
    match goal with |- context [afterPush ?t] =>
      destruct (afterPush_effect t)
        as (Hb & _ & Hs & Hc & _ & _ & Hp & _);
      set (s1 := t) in *
    end.
    set (s' := (afterPush s1).2) in *.
    assert (Hbw : forall r, bwidth s' r
                = bwidth (set_blocks (<[cur := kept cb pb]> (blocks s)) s) r)
      by (intros r; unfold bwidth; rewrite Hb; reflexivity).
    split; [rewrite Hs; subst s1; cbn; intros H; destruct (stack s); discriminate|].
    split.
    + eapply (stack_ok_push s s' cur top (newWidth cb pb) (width pb)).
      * rewrite Hs. reflexivity.
      * intros r Hr. rewrite Hbw. apply Hother. exact Hr.
      * exact Htop.
      * exact Htw.
      * rewrite Hbw, (bwidth_insert s (blocks s) cur cur _ Hlt).
        rewrite decide_True by reflexivity. reflexivity.
      * unfold newWidth. lra.
      * unfold newWidth, overhang.
        pose proof (Qabs_nonneg (delta cb pb)). lra.
      * exact Hok.
    + intros Hpl'. rewrite Hp in Hpl'. subst s1. cbn in Hpl'. discriminate.
  - rewrite (placeBlock_failure s cur top cb pb Hcur Hend Hpl Hcb Htop Hpb Hfail).
    rewrite bind_play.
    match goal with |- context [endGame ?t] =>
      destruct (endGame_effect t)
        as (_ & _ & Hb & _ & Hs & _ & _ & Hp & _)
    end.
    apply (Inv_placing s).
    + rewrite Hs. reflexivity.
    + rewrite Hp. reflexivity.
    + intros r Hr. unfold bwidth at 1. rewrite Hb.
      apply (Hother (set_moving false cb) r Hr).
    + split; [exact Hne|split; assumption].
Qed.

Lemma Inv_step (ev : Event) (s : GameState) : Inv s -> Inv (step ev s).
Proof.
  intros HI. destruct ev as [t|e| |]; unfold step; cbn [dispatch].
  - eapply Inv_same_shape; [|exact HI].
    apply same_game_shape. apply (frame_same_game s t).
  - rewrite handleInput_run. destruct (accepted e); [|exact HI].
    apply Inv_placeBlock. exact HI.
  - rewrite bind_get. destruct (pendingSpawns s) as [|n]; [exact HI|].
    rewrite bind_modify. unfold spawnCallback. rewrite bind_get.
    assert (HI' : Inv (set_pendingSpawns n s))
      by (eapply Inv_same_shape; [|exact HI]; repeat split).
    cbn [gameEnded set_pendingSpawns].
    destruct (gameEnded s); [exact HI'|].
    pose proof (Inv_spawn _ HI') as H.
    unfold bind. destruct (addNewMovingBlock (set_pendingSpawns n s)) as [[r|] s1];
      exact H.
  - eapply Inv_same_shape; [|exact HI].
    destruct (endGame_effect s) as (_ & _ & Hb & _ & Hs & Hc & _ & Hp & _).
    unfold same_shape. rewrite Hb, Hs, Hc, Hp. repeat split.
Qed.

Lemma Inv_run (evs : list Event) (s : GameState) : Inv s -> Inv (run evs s).
Proof.
  revert s. induction evs as [|ev evs IH]; intros s HI; [exact HI|].
  cbn. apply IH. apply Inv_step. exact HI.
Qed.

Lemma Inv_boot (scoreE : option Text) (gameOverE : option bool)
    (finalScoreE : option Text) (now : Q) :
  Inv (boot scoreE gameOverE finalScoreE now).
Proof.
  split; [discriminate|]. split; [split|].
  - intros r Hr. cbn in Hr. apply list_elem_of_singleton in Hr. subst r.
    exists 3. split; [reflexivity|lra].
  - intros i r r' w w' Hi Hi'. destruct i; discriminate.
  - intros _ cur [= <-]. split.
    + cbn. intros H. apply list_elem_of_singleton in H. discriminate.
    + exists 3, 0%nat, 3. repeat split. lra.
Qed.

(** C10.  In every state reached from [init] by any sequence of events,
    each block of the stack has a positive width, and each block is at most
    as wide as the block directly beneath it. *)
Theorem stack_widths_nonincreasing (scoreE : option Text)
    (gameOverE : option bool) (finalScoreE : option Text) (now : Q)
    (evs : list Event) :
  let s := run evs (boot scoreE gameOverE finalScoreE now) in
  (forall r, r ∈ stack s -> exists b, blocks s !! r = Some b /\ 0 < width b) /\
  (forall i r r' b b',
     stack s !! i = Some r -> stack s !! S i = Some r' ->
     blocks s !! r = Some b -> blocks s !! r' = Some b' ->
     width b' <= width b).
Proof.
  intros s.
  destruct (Inv_run evs _ (Inv_boot scoreE gameOverE finalScoreE now))
    as (_ & [Hpos Hsorted] & _).
  fold s in Hpos, Hsorted. split.
  - intros r Hr. destruct (Hpos r Hr) as (w & Hw & Hgt).
    apply bwidth_lookup in Hw. destruct Hw as (b & Hb & <-).
    exists b. split; assumption.
  - intros i r r' b b' Hi Hi' Hb Hb'.
    apply (Hsorted i r r' (width b) (width b') Hi Hi');
      apply bwidth_lookup; eexists; split; try eassumption; reflexivity.
Qed.

(** ** Worked scenarios *)

(** A moving block of width 3 placed exactly above the base: nothing is cut
    off. *)
Example scenario_aligned :
  exists b,
    blocks (placeBlock (scenario 0)).2 !! 1%nat = Some b /\
    width b == 3 /\ position_x (mesh b) == 0 /\
    gameEnded (placeBlock (scenario 0)).2 = false /\
    score (placeBlock (scenario 0)).2 = 1%Z.
Proof.
  eexists. split; [reflexivity|]. repeat split.
Qed.

(** Placed at [x = 2]: the block keeps width 1 around [x = 1], and a piece
    of width 2 falls on the right. *)
Example scenario_overhang :
  exists b d,
    blocks (placeBlock (scenario 2)).2 !! 1%nat = Some b /\
    drops (placeBlock (scenario 2)).2 = [d] /\
    width b == 1 /\ position_x (mesh b) == 1 /\
    geometry_width d == 2 /\ position_x d == 2.5 /\
    stack (placeBlock (scenario 2)).2 = [0%nat; 1%nat].
Proof.
  eexists. eexists. split; [reflexivity|]. split; [reflexivity|].
  repeat split.
Qed.

(** Placed at [x = 3]: no overlap is left and the game ends. *)
Example scenario_miss :
  gameEnded (placeBlock (scenario 3)).2 = true /\
  stack (placeBlock (scenario 3)).2 = [0%nat] /\
  score (placeBlock (scenario 3)).2 = 0%Z /\
  soundLog (placeBlock (scenario 3)).2 = [snd_fail].
Proof. repeat split. Qed.

(** At [x = 4.9] with speed 0.08 and a step of 2 the block would reach 5.06:
    it is put back on the bound and sent the other way. *)
Example scenario_bounce :
  exists b,
    blocks (moveCurrentBlock 2 (scenario 4.9)).2 !! 1%nat = Some b /\
    position_x (mesh b) == 5 /\
    direction (moveCurrentBlock 2 (scenario 4.9)).2 == -1.
Proof.
  eexists. split; [reflexivity|]. split; reflexivity.
Qed.

(** * Properties that depend on the arithmetic *)

(** ** Binary64 numbers *)








(** ** Score and speed *)




(** ** The two parts of a placed block *)




(** * The tower stays sound *)

Lemma Tower_core (s s' : GameState) : core_eq s s' -> Tower s -> Tower s'.
Proof.
  intros (Hb & Hs & Hc & Hd & Hp & Hsc & Ht & Hcam) [T1 T2 T3 T4 T5 T6 T7].
  split; rewrite ?Hb, ?Hs, ?Hc, ?Hd, ?Hp, ?Hsc, ?Ht; auto.
Qed.

Lemma core_eq_refl (s : GameState) : core_eq s s.
Proof. repeat split; auto. Qed.

(** The current block of a tower, when a placement may start. *)
Lemma Tower_ready (s : GameState) :
  Tower s -> isPlacingBlock s = false ->
  exists cur cb top tb,
    currentBlock s = Some cur /\ blocks s !! cur = Some cb /\
    lastOf (stack s) = Some top /\ blocks s !! top = Some tb /\
    (forall r b, blocks s !! r = Some b -> moving b = true -> r = cur) /\
    moving cb = true /\ (cur ∉ stack s) /\ width cb = width tb /\
    position_y (mesh cb) == len (stack s) * CONFIG.BOX_HEIGHT /\
    pendingSpawns s = 0%nat.
Proof.
  intros T Hp. destruct (tw_current s T) as (cur & cb & top & tb & H1 & H2 & H3 & H4 & H5 & H6).
  rewrite Hp in H6. exists cur, cb, top, tb. tauto.
Qed.

Lemma lastOf_elem {A} (l : list A) (x : A) : lastOf l = Some x -> x ∈ l.
Proof. unfold lastOf. apply list_elem_of_lookup_2. Qed.

Lemma lastOf_snoc {A} (l : list A) (x : A) : lastOf (l ++ [x]) = Some x.
Proof.
  unfold lastOf. rewrite length_app. cbn [length].
  replace (length l + 1 - 1)%nat with (length l) by lia.
  rewrite lookup_app_r by lia. rewrite Nat.sub_diag. reflexivity.
Qed.

(** Writing the current block while it is not on the stack: a block that is
    sound, with the same width, height and [moving] flag. *)
Lemma Tower_write_current (s : GameState) (cur : ref) (cb b' : Block) :
  Tower s ->
  isPlacingBlock s = false ->
  currentBlock s = Some cur ->
  blocks s !! cur = Some cb ->
  block_ok b' ->
  width b' = width cb ->
  moving b' = moving cb ->
  position_y (mesh b') = position_y (mesh cb) ->
  Tower (set_blocks (<[cur := b']> (blocks s)) s).
Proof.
  intros T Hp Hcur Hcb Hok Hw Hm Hy.
  destruct (Tower_ready s T Hp)
    as (cur' & cb' & top & tb & H1 & H2 & H3 & H4 & H5 & H6 & H7 & H8 & H9 & H10).
  assert (cur' = cur) by congruence. subst cur'.
  assert (cb' = cb) by congruence. subst cb'.
  assert (Hlt : (cur < length (blocks s))%nat) by (eapply lookup_lt_Some; exact Hcb).
  assert (Hne : forall r, r ∈ stack s -> cur <> r) by (intros r Hr ->; contradiction).
  destruct T as [T1 T2 T3 T4 T5 T6 _].
  split; cbn [blocks stack set_blocks direction score pendingSpawns camera
              currentBlock isPlacingBlock]; try assumption.
  - apply Forall_insert; assumption.
  - intros i r Hi. rewrite list_lookup_insert_ne
      by (apply Hne; eapply list_elem_of_lookup_2; exact Hi).
    exact (T6 i r Hi).
  - exists cur, b', top, tb. rewrite Hp.
    split; [exact Hcur|]. split; [apply list_lookup_insert_eq; exact Hlt|].
    split; [exact H3|].
    split; [rewrite list_lookup_insert_ne
              by (apply Hne; apply lastOf_elem; exact H3); exact H4|].
    split.
    + intros r b Hr Hmv. destruct (decide (cur = r)) as [->|Hn]; [reflexivity|].
      rewrite list_lookup_insert_ne in Hr by exact Hn. eapply H5; eassumption.
    + rewrite Hm, Hw, Hy. tauto.
Qed.

Lemma Tower_direction (s : GameState) (d : Q) :
  Tower s -> d = 1 \/ d = -1 -> Tower (set_direction d s).
Proof.
  intros [T1 T2 T3 T4 T5 T6 T7] Hd. split; auto.
Qed.

Lemma block_ok_position (b : Block) (x : Q) :
  block_ok b -> - CONFIG.BOUNDS <= x <= CONFIG.BOUNDS ->
  block_ok (set_mesh (set_position_x x (mesh b)) b).
Proof.
  intros (_ & H2 & H3) Hx. repeat split; try tauto; apply Hx.
Qed.

Lemma block_ok_clamped (b : Block) (y x : Q) :
  block_ok b -> - CONFIG.BOUNDS <= x <= CONFIG.BOUNDS ->
  block_ok (set_mesh
              (set_position_x x (mesh (set_mesh (set_position_x y (mesh b)) b)))
              (set_mesh (set_position_x y (mesh b)) b)).
Proof.
  intros (_ & H2 & H3) Hx. repeat split; try tauto; apply Hx.
Qed.

Lemma clamp_in_bounds (x : Q) :
  - CONFIG.BOUNDS <= Qmax (- CONFIG.BOUNDS) (Qmin CONFIG.BOUNDS x)
    <= CONFIG.BOUNDS.
Proof.
  split.
  - apply Q.le_max_l.
  - apply Q.max_lub; [unfold CONFIG.BOUNDS; lra|apply Q.le_min_l].
Qed.

Lemma Tower_moveCurrentBlock (s : GameState) (dt : Q) :
  Tower s -> Tower (moveCurrentBlock dt s).2.
Proof.
  intros T.
  destruct (gameEnded s) eqn:Hend.
  { rewrite moveCurrentBlock_idle by (left; exact Hend). exact T. }
  destruct (activeMoving s) eqn:Hact.
  2:{ rewrite moveCurrentBlock_idle by (right; exact Hact). exact T. }
  unfold activeMoving in Hact.
  destruct (currentBlock s) as [cur|] eqn:Hcur; [|discriminate].
  destruct (blocks s !! cur) as [cb|] eqn:Hcb; [|discriminate].
  assert (Hp : isPlacingBlock s = false).
  { destruct (tw_current s T) as (c & b & top & tb & H1 & H2 & _ & _ & _ & H6).
    destruct (isPlacingBlock s); [|reflexivity]. congruence. }
  assert (Hok : block_ok cb)
    by (eapply (proj1 (Forall_lookup _ _) (tw_blocks s T)); exact Hcb).
  rewrite (moveCurrentBlock_moving s cur cb dt Hcur Hcb Hact Hend). cbn [snd].
  set (np := position_x (mesh cb) + speed s * direction s * dt).
  destruct (Qltb CONFIG.BOUNDS (Qabs np)) eqn:E.
  - rewrite list_insert_insert_eq.
    apply (Tower_write_current (set_direction (direction s * -1) s) cur cb);
      try assumption; try reflexivity.
    + apply Tower_direction; [exact T|].
      destruct (tw_direction s T) as [-> | ->]; [right|left]; reflexivity.
    + apply block_ok_clamped; [exact Hok|apply clamp_in_bounds].
  - apply (Tower_write_current s cur cb); try assumption; try reflexivity.
    apply block_ok_position; [exact Hok|].
    apply Qltb_ge in E. apply Qabs_Qle_condition. exact E.
Qed.

Lemma updateCamera_camera (s : GameState) (dt : Q) :
  camera s <> None ->
  (updateCamera dt s).1 = Normal tt /\ camera (updateCamera dt s).2 <> None.
Proof.
  intros Hc. unfold updateCamera. js_unfold.
  destruct (stack s); [split; [reflexivity|exact Hc]|].
  destruct (camera s) as [y|] eqn:E; [|contradiction].
  match goal with |- context [Qltb ?a ?b] => destruct (Qltb a b) end;
    cbn; rewrite ?E; split; (reflexivity || discriminate).
Qed.

Lemma afterPush_host (s : GameState) :
  camera (afterPush s).2 = camera s /\
  rafPending (afterPush s).2 = rafPending s /\
  animationId (afterPush s).2 = animationId s /\
  gameOverEl (afterPush s).2 = gameOverEl s /\
  finalScoreEl (afterPush s).2 = finalScoreEl s.
Proof.
  unfold afterPush, updateScore, increaseDifficulty. js_unfold. js_simpl.
  destruct (scoreEl s); repeat split.
Qed.

Lemma endGame_host (s : GameState) :
  camera (endGame s).2 = camera s /\
  animationId (endGame s).2 = animationId s.
Proof.
  unfold endGame, cancelAnimationFrame. js_unfold. js_simpl.
  destruct (gameOverEl s), (finalScoreEl s), (animationId s) as [h|] eqn:Ea;
    js_simpl; try destruct (rafPending s) as [h'|]; js_simpl;
    try destruct (Pos.eqb h h'); js_simpl; repeat split;
    rewrite ?Ea; reflexivity.
Qed.

Lemma Tower_endGame (s : GameState) : Tower s -> Tower (endGame s).2.
Proof.
  apply Tower_core.
  destruct (endGame_effect s)
    as (_ & _ & Hb & _ & Hs & Hc & Hd & Hp & Hsc & _ & Ht & _).
  destruct (endGame_host s) as [Hcam _].
  unfold core_eq. rewrite Hb, Hs, Hc, Hd, Hp, Hsc, Ht, Hcam. repeat split; auto.
Qed.

Lemma Tower_frame (s : GameState) (t : Q) : Tower s -> Tower (step (Frame t) s).
Proof.
  intros T. unfold step. cbn [dispatch]. rewrite bind_get.
  destruct (rafPending s); [|exact T].
  rewrite bind_modify, animate_run.
  match goal with |- Tower (updateGame ?d ?v).2 =>
    assert (T1 : Tower v) by (revert T; apply Tower_core; repeat split; auto);
    set (dt := d); set (u := v) in *; clearbody u dt
  end.
  unfold updateGame. rewrite bind_get. destruct (gameEnded u); [exact T1|].
  pose proof (Tower_moveCurrentBlock u dt T1) as T2.
  unfold bind at 1.
  destruct (moveCurrentBlock dt u) as [[[]|] u2]; cbn [snd] in *; [|exact T2].
  destruct (updateCamera_effect u2 dt) as [c Hc].
  destruct (updateCamera_camera u2 dt (tw_camera _ T2)) as [_ Hcam].
  rewrite Hc in *. revert T2. apply Tower_core. repeat split; auto.
Qed.

(** The block that stays after a cut is sound. *)
Lemma block_ok_kept (cb pb : Block) :
  block_ok cb -> block_ok pb ->
  overhang cb pb < width cb ->
  block_ok (kept cb pb).
Proof.
  intros (Hx & Hd & Hw) (Hxp & _) Hlt.
  unfold block_ok, kept, newWidth, overhang in *.
  cbn [mesh width depth moving position_x geometry_width geometry_depth scale_x].
  split; [|split; [exact Hd|lra]].
  unfold delta. qlra.
Qed.

Lemma Tower_placeBlock (s : GameState) : Tower s -> Tower (placeBlock s).2.
Proof.
  intros T. destruct (placeBlock_enabled s) eqn:Hen.
  2:{ rewrite (placeBlock_disabled s Hen). exact T. }
  unfold placeBlock_enabled in Hen.
  destruct (currentBlock s) as [cur0|] eqn:Hcur0; [|discriminate].
  apply andb_true_iff in Hen. destruct Hen as [Hend Hpl].
  apply negb_true_iff in Hend. apply negb_true_iff in Hpl.
  destruct (Tower_ready s T Hpl)
    as (cur & cb & top & tb & Hcur & Hcb & Htop & Htb & Huniq & Hmv & Hnin & Hw & Hy & Hpend).
  assert (cur = cur0) by congruence. subst cur0. clear Hcur0.
  assert (Hlt : (cur < length (blocks s))%nat) by (eapply lookup_lt_Some; exact Hcb).
  assert (Hne : forall r, r ∈ stack s -> cur <> r) by (intros r Hr ->; contradiction).
  assert (Hokc : block_ok cb)
    by (eapply (proj1 (Forall_lookup _ _) (tw_blocks s T)); exact Hcb).
  assert (Hokt : block_ok tb)
    by (eapply (proj1 (Forall_lookup _ _) (tw_blocks s T)); exact Htb).
  destruct T as [T1 T2 T3 T4 T5 T6 _].
  destruct (Qlt_le_dec (overhang cb tb) (width cb)) as [Hsucc|Hfail].
  - rewrite (placeBlock_success s cur top cb tb Hcur Hend Hpl Hcb Htop Htb Hsucc).
    match goal with |- context [afterPush ?t] =>
      destruct (afterPush_effect t)
        as (Eb & _ & Es & Ec & Ed & _ & Ep & Esc & Esome & Enone);
      destruct (afterPush_host t) as (Ecam & _);
      set (s1 := t) in *
    end.
    assert (Et : (pendingSpawns (afterPush s1).2 <= 1)%nat).
    { destruct (scoreEl s1) eqn:Hel.
      - destruct Esome as (_ & _ & Hq & _); [discriminate|].
        rewrite Hq. subst s1. cbn. lia.
      - destruct Enone as (_ & _ & Hq & _); [reflexivity|].
        rewrite Hq. subst s1. cbn. lia. }
    clear Esome Enone.
    split; rewrite ?Eb, ?Es, ?Ec, ?Ed, ?Ep, ?Esc, ?Ecam; subst s1;
      cbn [blocks stack set_blocks set_stack set_drops set_isPlacingBlock
           direction score camera currentBlock isPlacingBlock]; try assumption.
    + apply Forall_insert; [exact T1|].
      apply block_ok_kept; assumption.
    + rewrite length_app. cbn [length]. lia.
    + intros i r Hi. apply lookup_snoc_Some in Hi.
      destruct Hi as [[Hi1 Hi]|[-> <-]].
      * rewrite list_lookup_insert_ne
          by (apply Hne; eapply list_elem_of_lookup_2; exact Hi).
        exact (T6 i r Hi).
      * exists (kept cb tb). split; [apply list_lookup_insert_eq; exact Hlt|].
        split; [reflexivity|]. exact Hy.
    + exists cur, (kept cb tb), cur, (kept cb tb).
      split; [exact Hcur|].
      split; [apply list_lookup_insert_eq; exact Hlt|].
      split; [apply lastOf_snoc|].
      split; [apply list_lookup_insert_eq; exact Hlt|].
      split; [|reflexivity].
      intros r b Hr Hm. destruct (decide (cur = r)) as [->|Hn]; [reflexivity|].
      rewrite list_lookup_insert_ne in Hr by exact Hn. eapply Huniq; eassumption.
  - rewrite (placeBlock_failure s cur top cb tb Hcur Hend Hpl Hcb Htop Htb Hfail).
    rewrite bind_play. apply Tower_endGame.
    split; cbn [blocks stack set_blocks set_soundLog set_isPlacingBlock
                direction score camera currentBlock isPlacingBlock
                pendingSpawns]; try assumption.
    + apply Forall_insert; [exact T1|].
      destruct Hokc as (H1 & H2 & H3).
      repeat split; try tauto.
    + intros i r Hi. rewrite list_lookup_insert_ne
        by (apply Hne; eapply list_elem_of_lookup_2; exact Hi).
      exact (T6 i r Hi).
    + exists cur, (set_moving false cb), top, tb.
      split; [exact Hcur|].
      split; [apply list_lookup_insert_eq; exact Hlt|].
      split; [exact Htop|].
      split; [rewrite list_lookup_insert_ne
                by (apply Hne; apply lastOf_elem; exact Htop); exact Htb|].
      split; [|reflexivity].
      intros r b Hr Hm. destruct (decide (cur = r)) as [->|Hn]; [reflexivity|].
      rewrite list_lookup_insert_ne in Hr by exact Hn. eapply Huniq; eassumption.
Qed.

Lemma Tower_timeout (s : GameState) : Tower s -> Tower (step Timeout s).
Proof.
  intros T. unfold step. cbn [dispatch]. rewrite bind_get.
  destruct (pendingSpawns s) as [|n] eqn:Hn; [exact T|].
  rewrite bind_modify. unfold spawnCallback. rewrite bind_get.
  cbn [gameEnded set_pendingSpawns].
  destruct (tw_current s T)
    as (cur & cb & top & tb & Hcur & Hcb & Htop & Htb & Huniq & Hif).
  assert (Hpl : isPlacingBlock s = true).
  { destruct (isPlacingBlock s); [reflexivity|].
    destruct Hif as (_ & _ & _ & _ & H0). congruence. }
  rewrite Hpl in Hif.
  assert (n = 0%nat) by (pose proof (tw_timer s T); lia). subst n.
  assert (Hokt : block_ok tb)
    by (eapply (proj1 (Forall_lookup _ _) (tw_blocks s T)); exact Htb).
  destruct T as [T1 T2 T3 T4 T5 T6 _].
  destruct (gameEnded s).
  { cbn [ret snd]. split; cbn [set_pendingSpawns pendingSpawns isPlacingBlock];
      try assumption; [lia|].
    exists cur, cb, top, tb. rewrite Hpl. tauto. }
  unfold bind at 1.
  rewrite (addNewMovingBlock_run (set_pendingSpawns 0 s) top tb Htop Htb).
  cbn [ret snd].
  assert (Hvalid : forall r, r ∈ stack s -> (r < length (blocks s))%nat).
  { intros r Hr. apply list_elem_of_lookup_1 in Hr. destruct Hr as [i Hi].
    destruct (T6 i r Hi) as (b & Hb & _). eapply lookup_lt_Some. exact Hb. }
  split; cbn [blocks stack set_blocks set_currentBlock set_isPlacingBlock
              set_pendingSpawns direction score camera currentBlock
              isPlacingBlock pendingSpawns]; try assumption.
  - apply Forall_app. split; [exact T1|]. apply Forall_singleton.
    destruct Hokt as (H1 & H2 & H3).
    unfold block_ok, spawned.
    cbn [mesh width depth moving position_x geometry_width geometry_depth scale_x].
    split; [unfold CONFIG.BOUNDS; lra|]. split; [tauto|exact H3].
  - lia.
  - intros i r Hi. destruct (T6 i r Hi) as (b & Hb & Hrest).
    exists b. split; [|exact Hrest].
    rewrite lookup_app_l by (eapply lookup_lt_Some; exact Hb). exact Hb.
  - exists (length (blocks s)), (spawned tb (len (stack s))), top, tb.
    split; [reflexivity|].
    split; [rewrite lookup_app_r by lia; rewrite Nat.sub_diag; reflexivity|].
    split; [exact Htop|].
    split; [rewrite lookup_app_l by (eapply lookup_lt_Some; exact Htb); exact Htb|].
    split.
    + intros r b Hr Hm.
      destruct (decide (r < length (blocks s))%nat) as [Hlt|Hge].
      * rewrite lookup_app_l in Hr by exact Hlt.
        assert (r = cur) by (eapply Huniq; eassumption). subst r.
        congruence.
      * apply lookup_lt_Some in Hr. rewrite length_app in Hr. cbn in Hr. lia.
    + split; [reflexivity|]. split.
      * intros Hin. apply Hvalid in Hin. lia.
      * repeat split; reflexivity.
Qed.

Lemma Tower_step (ev : Event) (s : GameState) : Tower s -> Tower (step ev s).
Proof.
  intros T. destruct ev as [t|e| |].
  - apply Tower_frame. exact T.
  - unfold step. cbn [dispatch]. rewrite handleInput_run.
    destruct (accepted e); [|exact T]. apply Tower_placeBlock. exact T.
  - apply Tower_timeout. exact T.
  - apply Tower_endGame. exact T.
Qed.

Lemma Tower_run (evs : list Event) (s : GameState) : Tower s -> Tower (run evs s).
Proof.
  revert s. induction evs as [|ev evs IH]; intros s T; [exact T|].
  cbn. apply IH. apply Tower_step. exact T.
Qed.

Lemma Tower_boot (scoreE : option Text) (gameOverE : option bool)
    (finalScoreE : option Text) (now : Q) :
  Tower (boot scoreE gameOverE finalScoreE now).
Proof.
  split.
  - change (blocks (boot scoreE gameOverE finalScoreE now))
      with [ mkBlock (mkMesh CONFIG.BOX_SIZE CONFIG.BOX_SIZE 0 0 1)
               CONFIG.BOX_SIZE CONFIG.BOX_SIZE false;
             spawned (mkBlock (mkMesh CONFIG.BOX_SIZE CONFIG.BOX_SIZE 0 0 1)
                        CONFIG.BOX_SIZE CONFIG.BOX_SIZE false)
               (len [0%nat]) ].
    apply Forall_cons. split; [|apply Forall_cons; split; [|constructor]];
      unfold block_ok, spawned;
      cbn [mesh width depth moving position_x geometry_width geometry_depth
           scale_x];
      unfold CONFIG.BOUNDS, CONFIG.BOX_SIZE.
    + split; [lra|]. split; [split; reflexivity|lra].
    + split; [lra|]. split; [split; reflexivity|lra].
  - left. reflexivity.
  - reflexivity.
  - cbn. lia.
  - discriminate.
  - intros [|i] r Hi; [|discriminate]. injection Hi as <-.
    eexists. split; [reflexivity|]. split; reflexivity.
  - exists 1%nat. eexists. exists 0%nat. eexists.
    split; [reflexivity|]. split; [reflexivity|]. split; [reflexivity|].
    split; [reflexivity|]. split.
    + intros [|[|r]] b Hr Hm; try reflexivity; cbn in Hr.
      * injection Hr as <-. discriminate.
      * discriminate.
    + cbn. split; [reflexivity|]. split.
      * intros H. apply list_elem_of_singleton in H. discriminate.
      * repeat split; reflexivity.
Qed.

(** ** What holds in every state of a session *)

(** X1.  In every state reached from [init], every block, moving or placed,
    has its centre within the bounds: [-BOUNDS <= x <= BOUNDS]. *)
Theorem blocks_within_bounds (scoreE : option Text) (gameOverE : option bool)
    (finalScoreE : option Text) (now : Q) (evs : list Event) :
  Forall (fun b => - CONFIG.BOUNDS <= position_x (mesh b) <= CONFIG.BOUNDS)
    (blocks (run evs (boot scoreE gameOverE finalScoreE now))).
Proof.
  eapply Forall_impl;
    [apply (tw_blocks _ (Tower_run evs _ (Tower_boot scoreE gameOverE finalScoreE now)))|].
  intros b Hb. apply Hb.
Qed.

(** X2.  In every state reached from [init], the direction is 1 or -1. *)
Theorem direction_is_unit (scoreE : option Text) (gameOverE : option bool)
    (finalScoreE : option Text) (now : Q) (evs : list Event) :
  direction (run evs (boot scoreE gameOverE finalScoreE now)) = 1 \/
  direction (run evs (boot scoreE gameOverE finalScoreE now)) = -1.
Proof.
  apply (tw_direction _ (Tower_run evs _ (Tower_boot scoreE gameOverE finalScoreE now))).
Qed.

(** X3.  In every state reached from [init], in any page, the score is the
    number of blocks on the stack minus the base block. *)
Theorem score_is_height (scoreE : option Text) (gameOverE : option bool)
    (finalScoreE : option Text) (now : Q) (evs : list Event) :
  let s := run evs (boot scoreE gameOverE finalScoreE now) in
  score s = (Z.of_nat (length (stack s)) - 1)%Z.
Proof.
  intros s.
  pose proof (tw_score _ (Tower_run evs _ (Tower_boot scoreE gameOverE finalScoreE now))) as H.
  fold s in H. lia.
Qed.

(** X4.  In every state reached from [init], the block at index [i] of the
    stack is at rest and sits at height [i * BOX_HEIGHT]. *)
Theorem stacked_blocks_at_rest (scoreE : option Text) (gameOverE : option bool)
    (finalScoreE : option Text) (now : Q) (evs : list Event) (i : nat) (r : ref) :
  let s := run evs (boot scoreE gameOverE finalScoreE now) in
  stack s !! i = Some r ->
  exists b,
    blocks s !! r = Some b /\ moving b = false /\
    position_y (mesh b) == inject_Z (Z.of_nat i) * CONFIG.BOX_HEIGHT.
Proof.
  intros s.
  apply (tw_stack _ (Tower_run evs _ (Tower_boot scoreE gameOverE finalScoreE now))).
Qed.

(** X5.  In every state reached from [init], every block has the depth of
    the base block, [BOX_SIZE]: blocks are cut along x only. *)
Theorem depth_is_constant (scoreE : option Text) (gameOverE : option bool)
    (finalScoreE : option Text) (now : Q) (evs : list Event) :
  Forall (fun b => depth b = CONFIG.BOX_SIZE /\
                   geometry_depth (mesh b) = CONFIG.BOX_SIZE)
    (blocks (run evs (boot scoreE gameOverE finalScoreE now))).
Proof.
  eapply Forall_impl;
    [apply (tw_blocks _ (Tower_run evs _ (Tower_boot scoreE gameOverE finalScoreE now)))|].
  intros b Hb. apply Hb.
Qed.

(** X6.  In every state reached from [init] at most one block is moving: a
    block whose [moving] flag is set is the current block, it is not on the
    stack, and no placement is in flight. *)
Theorem single_active_block (scoreE : option Text) (gameOverE : option bool)
    (finalScoreE : option Text) (now : Q) (evs : list Event) (r : ref) (b : Block) :
  let s := run evs (boot scoreE gameOverE finalScoreE now) in
  blocks s !! r = Some b ->
  moving b = true ->
  currentBlock s = Some r /\ (r ∉ stack s) /\ isPlacingBlock s = false.
Proof.
  intros s Hb Hm.
  destruct (tw_current _ (Tower_run evs _ (Tower_boot scoreE gameOverE finalScoreE now)))
    as (cur & cb & top & tb & Hcur & Hcb & _ & _ & Huniq & Hif).
  fold s in Hcur, Hcb, Huniq, Hif.
  assert (r = cur) by (eapply Huniq; eassumption). subst r.
  assert (cb = b) by congruence. subst cb.
  destruct (isPlacingBlock s); [congruence|].
  split; [exact Hcur|]. split; [tauto|reflexivity].
Qed.

(** X7.  In every state reached from [init] in which no placement is in
    flight, there is a current block: it is moving, it is exactly as wide as
    the top of the stack, it sits at height [stack.length * BOX_HEIGHT], and
    no spawn timer is pending. *)
Theorem ready_for_placement (scoreE : option Text) (gameOverE : option bool)
    (finalScoreE : option Text) (now : Q) (evs : list Event) :
  let s := run evs (boot scoreE gameOverE finalScoreE now) in
  isPlacingBlock s = false ->
  exists cur cb top tb,
    currentBlock s = Some cur /\ blocks s !! cur = Some cb /\
    lastOf (stack s) = Some top /\ blocks s !! top = Some tb /\
    moving cb = true /\ (cur ∉ stack s) /\ width cb = width tb /\
    position_y (mesh cb) == len (stack s) * CONFIG.BOX_HEIGHT /\
    pendingSpawns s = 0%nat.
Proof.
  intros s Hp.
  destruct (Tower_ready s (Tower_run evs _ (Tower_boot scoreE gameOverE finalScoreE now)) Hp)
    as (cur & cb & top & tb & H).
  exists cur, cb, top, tb. tauto.
Qed.

(** X8.  In every state reached from [init], at most one spawn timer is
    pending, and one is pending only while a placement is in flight. *)
Theorem one_spawn_pending (scoreE : option Text) (gameOverE : option bool)
    (finalScoreE : option Text) (now : Q) (evs : list Event) :
  let s := run evs (boot scoreE gameOverE finalScoreE now) in
  (pendingSpawns s <= 1)%nat /\
  (pendingSpawns s = 1%nat -> isPlacingBlock s = true).
Proof.
  intros s.
  pose proof (Tower_run evs _ (Tower_boot scoreE gameOverE finalScoreE now)) as T.
  fold s in T. split; [apply (tw_timer s T)|].
  intros H1. destruct (isPlacingBlock s) eqn:Hp; [reflexivity|].
  destruct (Tower_ready s T Hp) as (cur & cb & top & tb & H). 
  assert (pendingSpawns s = 0%nat) by tauto. lia.
Qed.


Lemma stacked_blocks_at_rest_witness :
  exists b,
    blocks (run [] (started 0)) !! 0%nat = Some b /\ moving b = false /\
    position_y (mesh b) == inject_Z (Z.of_nat 0) * CONFIG.BOX_HEIGHT.
Proof.
  exact (stacked_blocks_at_rest (Some Markup) (Some false) (Some Markup) 0
           [] 0%nat 0%nat eq_refl).
Defined.

Lemma single_active_block_witness :
  currentBlock (run [] (started 0)) = Some 1%nat /\
  (1%nat ∉ stack (run [] (started 0))) /\
  isPlacingBlock (run [] (started 0)) = false.
Proof.
  exact (single_active_block (Some Markup) (Some false) (Some Markup) 0
           [] 1%nat _ eq_refl eq_refl).
Defined.

Lemma ready_for_placement_witness :
  exists cur cb top tb,
    currentBlock (run [] (started 0)) = Some cur /\
    blocks (run [] (started 0)) !! cur = Some cb /\
    lastOf (stack (run [] (started 0))) = Some top /\
    blocks (run [] (started 0)) !! top = Some tb /\
    moving cb = true /\ (cur ∉ stack (run [] (started 0))) /\
    width cb = width tb /\
    position_y (mesh cb)
      == len (stack (run [] (started 0))) * CONFIG.BOX_HEIGHT /\
    pendingSpawns (run [] (started 0)) = 0%nat.
Proof.
  exact (ready_for_placement (Some Markup) (Some false) (Some Markup) 0
           [] eq_refl).
Defined.

(** * No handler throws *)

Lemma moveCurrentBlock_normal (s : GameState) (cur : ref) (cb : Block) (dt : Q) :
  currentBlock s = Some cur -> blocks s !! cur = Some cb ->
  (moveCurrentBlock dt s).1 = Normal tt.
Proof.
  intros Hcur Hcb.
  destruct (moving cb) eqn:Hm; [destruct (gameEnded s) eqn:He|].
  - unfold moveCurrentBlock. js_unfold. rewrite Hcur, Hcb, Hm, He. reflexivity.
  - rewrite (moveCurrentBlock_moving s cur cb dt Hcur Hcb Hm He). reflexivity.
  - unfold moveCurrentBlock. js_unfold. rewrite Hcur, Hcb, Hm. reflexivity.
Qed.

Lemma dispatch_normal (ev : Event) (s : GameState) :
  Tower s -> scoreEl s <> None -> (dispatch ev s).1 = Normal tt.
Proof.
  intros T Hel.
  destruct (tw_current s T) as (cur & cb & top & tb & Hcur & Hcb & Htop & Htb & Huniq & Hif).
  destruct ev as [t|e| |]; cbn [dispatch].
  - rewrite bind_get. destruct (rafPending s); [|reflexivity].
    rewrite bind_modify, animate_run.
    match goal with |- (updateGame ?d ?v).1 = _ =>
      assert (T1 : Tower v) by (revert T; apply Tower_core; repeat split; auto);
      assert (Hc1 : currentBlock v = Some cur) by exact Hcur;
      assert (Hb1 : blocks v !! cur = Some cb) by exact Hcb;
      set (dt := d); set (u := v) in *; clearbody u dt
    end.
    unfold updateGame. rewrite bind_get. destruct (gameEnded u); [reflexivity|].
    pose proof (Tower_moveCurrentBlock u dt T1) as T2.
    pose proof (moveCurrentBlock_normal u cur cb dt Hc1 Hb1) as Hn.
    unfold bind at 1.
    destruct (moveCurrentBlock dt u) as [[[]|] u2]; cbn [fst snd] in *;
      [|discriminate].
    apply updateCamera_camera. apply (tw_camera _ T2).
  - rewrite handleInput_run. destruct (accepted e); [|reflexivity].
    destruct (placeBlock_enabled s) eqn:Hen.
    2:{ rewrite (placeBlock_disabled s Hen). reflexivity. }
    unfold placeBlock_enabled in Hen. rewrite Hcur in Hen.
    apply andb_true_iff in Hen. destruct Hen as [Hend Hpl].
    apply negb_true_iff in Hend. apply negb_true_iff in Hpl.
    destruct (Qlt_le_dec (overhang cb tb) (width cb)) as [Hsucc|Hfail].
    + rewrite (placeBlock_success s cur top cb tb Hcur Hend Hpl Hcb Htop Htb Hsucc).
      match goal with |- context [afterPush ?t] =>
        destruct (afterPush_effect t) as (_ & _ & _ & _ & _ & _ & _ & _ & Esome & _)
      end.
      apply Esome. exact Hel.
    + rewrite (placeBlock_failure s cur top cb tb Hcur Hend Hpl Hcb Htop Htb Hfail).
      rewrite bind_play. apply endGame_effect.
  - rewrite bind_get. destruct (pendingSpawns s) as [|n]; [reflexivity|].
    rewrite bind_modify. unfold spawnCallback. rewrite bind_get.
    cbn [gameEnded set_pendingSpawns]. destruct (gameEnded s); [reflexivity|].
    unfold bind at 1.
    rewrite (addNewMovingBlock_run (set_pendingSpawns n s) top tb Htop Htb).
    reflexivity.
  - apply endGame_effect.
Qed.

(** X9.  In a page that has the [score] element, no handler throws in any
    state reached from [init]: every frame, input, timer and termination
    completes normally. *)
Theorem handlers_complete (txt : Text) (gameOverE : option bool)
    (finalScoreE : option Text) (now : Q) (evs : list Event) (ev : Event) :
  (dispatch ev (run evs (boot (Some txt) gameOverE finalScoreE now))).1
    = Normal tt.
Proof.
  apply dispatch_normal.
  - apply Tower_run. apply Tower_boot.
  - apply run_score_speed. discriminate.
Qed.

(** * After the end of the game *)

Lemma moveCurrentBlock_shape (s : GameState) (dt : Q) :
  exists bl d, (moveCurrentBlock dt s).2 = set_blocks bl (set_direction d s).
Proof.
  destruct (gameEnded s) eqn:Hend.
  { rewrite moveCurrentBlock_idle by (left; exact Hend).
    exists (blocks s), (direction s). destruct s; reflexivity. }
  destruct (activeMoving s) eqn:Hact.
  2:{ rewrite moveCurrentBlock_idle by (right; exact Hact).
      exists (blocks s), (direction s). destruct s; reflexivity. }
  unfold activeMoving in Hact.
  destruct (currentBlock s) as [cur|] eqn:Hcur; [|discriminate].
  destruct (blocks s !! cur) as [cb|] eqn:Hcb; [|discriminate].
  rewrite (moveCurrentBlock_moving s cur cb dt Hcur Hcb Hact Hend). cbn [snd].
  match goal with |- context [Qltb ?a ?b] => destruct (Qltb a b) end.
  - eexists. eexists. reflexivity.
  - eexists. exists (direction s). destruct s; reflexivity.
Qed.

Lemma updateGame_shape (s : GameState) (dt : Q) :
  exists bl d c,
    (updateGame dt s).2 = set_camera c (set_blocks bl (set_direction d s)).
Proof.
  unfold updateGame. rewrite bind_get.
  destruct (gameEnded s).
  { exists (blocks s), (direction s), (camera s). destruct s; reflexivity. }
  destruct (moveCurrentBlock_shape s dt) as (bl & d & Hm).
  unfold bind. destruct (moveCurrentBlock dt s) as [[[]|] s1]; cbn [snd] in *;
    subst s1.
  - destruct (updateCamera_effect (set_blocks bl (set_direction d s)) dt) as [c ->].
    exists bl, d, c. reflexivity.
  - exists bl, d, (camera s). destruct s; reflexivity.
Qed.









(** * Input and termination *)

(** X11.  All input channels act alike: a touch, a click and the space key
    do exactly what a call of [placeBlock] does, in every state; any other
    key does nothing. *)
Theorem handleInput_channels (s : GameState) (code : string) :
  handleInput touchstart s = placeBlock s /\
  handleInput mousedown s = placeBlock s /\
  handleInput (keydown "Space") s = placeBlock s /\
  (code <> "Space"%string -> handleInput (keydown code) s = (Normal tt, s)).
Proof.
  rewrite !handleInput_run. cbn [accepted].
  repeat split. intros Hne.
  destruct (String.eqb code "Space") eqn:E; [|reflexivity].
  apply String.eqb_eq in E. contradiction.
Qed.

Lemma handleInput_channels_witness :
  handleInput touchstart (scenario 2) = placeBlock (scenario 2) /\
  handleInput mousedown (scenario 2) = placeBlock (scenario 2) /\
  handleInput (keydown "Space") (scenario 2) = placeBlock (scenario 2) /\
  handleInput (keydown "Enter") (scenario 2) = (Normal tt, scenario 2).
Proof.
  destruct (handleInput_channels (scenario 2) "Enter") as (H1 & H2 & H3 & H4).
  split; [exact H1|]. split; [exact H2|]. split; [exact H3|].
  apply H4. discriminate.
Defined.

(** What [endGame] shows on the page. *)
Lemma endGame_dom (s : GameState) :
  (forall g f, gameOverEl s = Some g -> finalScoreEl s = Some f ->
     gameOverEl (endGame s).2 = Some true /\
     finalScoreEl (endGame s).2 = Some (Lograste (score s))) /\
  (gameOverEl s = None \/ finalScoreEl s = None ->
     gameOverEl (endGame s).2 = gameOverEl s /\
     finalScoreEl (endGame s).2 = finalScoreEl s).
Proof.
  unfold endGame, cancelAnimationFrame. js_unfold. js_simpl.
  destruct (gameOverEl s) as [g0|] eqn:Hg, (finalScoreEl s) as [f0|] eqn:Hf,
           (animationId s) as [h|];
    js_simpl; try destruct (rafPending s) as [h'|]; js_simpl;
    try destruct (Pos.eqb h h'); js_simpl; rewrite ?Hg, ?Hf;
    (split; [intros g f; try discriminate; intros _ _; split; reflexivity
            |intros [H|H]; try discriminate; split; reflexivity]).
Qed.

(** After [endGame] the frame that [animationId] names is not pending. *)
Lemma endGame_cancels (s : GameState) (h : positive) :
  animationId (endGame s).2 = Some h -> rafPending (endGame s).2 <> Some h.
Proof.
  destruct (endGame_host s) as [_ ->].
  unfold endGame, cancelAnimationFrame. js_unfold. js_simpl.
  intros Ha. rewrite Ha.
  destruct (gameOverEl s), (finalScoreEl s); js_simpl;
    destruct (rafPending s) as [h'|] eqn:Hp; js_simpl; rewrite ?Hp;
    try discriminate;
    destruct (Pos.eqb_spec h h') as [->|Hne]; js_simpl; rewrite ?Hp;
    try discriminate; congruence.
Qed.

(** [endGame] changes nothing in a state that it has left. *)
Lemma endGame_fixed (s : GameState) :
  gameEnded s = true ->
  (forall g f, gameOverEl s = Some g -> finalScoreEl s = Some f ->
     Some g = Some true /\ Some f = Some (Lograste (score s))) ->
  (forall h, animationId s = Some h -> rafPending s <> Some h) ->
  endGame s = (Normal tt, s).
Proof.
  intros He Hdom Hraf.
  unfold endGame, cancelAnimationFrame. js_unfold.
  destruct s as [bl dr cam st cb d ge ip sc sp aid lt ps rp rn sl se goe fse].
  cbn in He, Hdom, Hraf. subst ge. cbn.
  assert (Hc : match aid with
               | Some h => match rp with
                           | Some h' => Pos.eqb h h' = false
                           | None => True
                           end
               | None => True
               end).
  { destruct aid as [h|]; [|exact I]. destruct rp as [h'|]; [|exact I].
    apply Pos.eqb_neq. intros ->. exact (Hraf h' eq_refl eq_refl). }
  clear Hraf.
  destruct goe as [g|], fse as [f|]; cbn;
    try (destruct (Hdom g f eq_refl eq_refl) as [[= ->] [= ->]]);
    (destruct aid as [h|]; [destruct rp as [h'|]; [cbn; rewrite Hc|]|]);
    reflexivity.
Qed.

(** X12.  [endGame] completes in every state and ends the game; calling it
    again changes nothing.  When the page has both the [gameOver] and the
    [finalScore] element the panel is shown with the current score;
    otherwise the page is left as it is. *)
Theorem endGame_idempotent (s : GameState) :
  (endGame s).1 = Normal tt /\
  gameEnded (endGame s).2 = true /\
  endGame (endGame s).2 = (Normal tt, (endGame s).2) /\
  (forall g f, gameOverEl s = Some g -> finalScoreEl s = Some f ->
     gameOverEl (endGame s).2 = Some true /\
     finalScoreEl (endGame s).2 = Some (Lograste (score s))) /\
  (gameOverEl s = None \/ finalScoreEl s = None ->
     gameOverEl (endGame s).2 = gameOverEl s /\
     finalScoreEl (endGame s).2 = finalScoreEl s).
Proof.
  destruct (endGame_effect s)
    as (Hn & He & _ & _ & _ & _ & _ & _ & Hsc & _).
  destruct (endGame_dom s) as [Hshow Hkeep].
  split; [exact Hn|]. split; [exact He|]. split; [|split; assumption].
  apply endGame_fixed; [exact He| |apply endGame_cancels].
  intros g f Hg Hf. rewrite Hsc.
  destruct (gameOverEl s) as [g0|] eqn:Eg.
  - destruct (finalScoreEl s) as [f0|] eqn:Ef.
    + destruct (Hshow g0 f0 eq_refl eq_refl) as [Hg' Hf'].
      rewrite <- Hg, <- Hf, Hg', Hf'. split; reflexivity.
    + destruct Hkeep as [_ Hf']; [right; reflexivity|]. congruence.
  - destruct Hkeep as [Hg' _]; [left; reflexivity|]. congruence.
Qed.

(** * The camera ([updateCamera]) *)

(** X13.  With a step between 0 and 6 (the frame loop gives at most
    [100 / 16.67]), [updateCamera] moves the camera towards
    [stack.length * BOX_HEIGHT + 2] from below and never past it: the camera
    does not go down, it stays where it is when it is at or above the
    target, and below the target it does not overshoot.  On an empty stack
    nothing happens. *)
Theorem updateCamera_follows (s : GameState) (y dt : Q) :
  camera s = Some y ->
  0 <= dt <= 6 ->
  let target := len (stack s) * CONFIG.BOX_HEIGHT + 2 in
  (stack s = [] -> updateCamera dt s = (Normal tt, s)) /\
  (stack s <> [] ->
     exists y',
       updateCamera dt s = (Normal tt, set_camera (Some y') s) /\
       y <= y' /\
       (target <= y -> y' = y) /\
       (y < target -> y' <= target)).
Proof.
  intros Hc Hdt target. unfold updateCamera. js_unfold. split.
  - intros ->. reflexivity.
  - intros Hne. destruct (stack s) as [|r st] eqn:Hst; [contradiction|].
    rewrite Hc. fold target.
    destruct (Qltb y target) eqn:E.
    + apply Qltb_lt in E. eexists. split; [reflexivity|].
      unfold CONFIG.ANIMATION.CAMERA_SPEED.
      assert (P1 : 0 <= (target - y) * dt) by (apply Qmult_le_0_compat; lra).
      assert (P2 : 0 <= (target - y) * (6 - dt))
        by (apply Qmult_le_0_compat; lra).
      split; [lra|]. split; [intros H; exfalso; lra|].
      intros _. lra.
    + apply Qltb_ge in E. exists y. split.
      * rewrite <- Hc. destruct s; reflexivity.
      * split; [lra|]. split; [reflexivity|]. intros H. exfalso. lra.
Qed.

Lemma updateCamera_follows_witness :
  (stack (placeBlock (scenario 2)).2 = [] ->
     updateCamera 6 (placeBlock (scenario 2)).2
     = (Normal tt, (placeBlock (scenario 2)).2)) /\
  (stack (placeBlock (scenario 2)).2 <> [] ->
     exists y',
       updateCamera 6 (placeBlock (scenario 2)).2
       = (Normal tt, set_camera (Some y') (placeBlock (scenario 2)).2) /\
       4 <= y' /\
       (len (stack (placeBlock (scenario 2)).2) * CONFIG.BOX_HEIGHT + 2 <= 4
          -> y' = 4) /\
       (4 < len (stack (placeBlock (scenario 2)).2) * CONFIG.BOX_HEIGHT + 2 ->
          y' <= len (stack (placeBlock (scenario 2)).2) * CONFIG.BOX_HEIGHT + 2)).
Proof.
  apply (updateCamera_follows (placeBlock (scenario 2)).2 4 6 eq_refl).
  split; vm_compute; discriminate.
Defined.

(** * A page without the [score] element *)

Lemma stuck_step (ev : Event) (s : GameState) :
  Tower s -> stuck s -> stuck (step ev s).
Proof.
  intros T St. pose proof St as (Hel & Hpend & Hsp & Hsc).
  destruct ev as [t|e| |]; unfold step; cbn [dispatch].
  - rewrite bind_get. destruct (rafPending s); [|exact St].
    rewrite bind_modify, animate_run.
    match goal with |- stuck (updateGame ?d ?v).2 =>
      destruct (updateGame_shape v d) as (bl & dd & c & ->)
    end.
    exact St.
  - rewrite handleInput_run. destruct (accepted e); [|exact St].
    destruct (tw_current s T)
      as (cur & cb & top & tb & Hcur & Hcb & Htop & Htb & Huniq & Hif).
    destruct (placeBlock_enabled s) eqn:Hen.
    2:{ rewrite (placeBlock_disabled s Hen). exact St. }
    unfold placeBlock_enabled in Hen. rewrite Hcur in Hen.
    apply andb_true_iff in Hen. destruct Hen as [He Hpl].
    apply negb_true_iff in He. apply negb_true_iff in Hpl.
    assert (Hs0 : score s = 0%Z) by (destruct Hsc as [H|[_ H]]; congruence).
    destruct (Qlt_le_dec (overhang cb tb) (width cb)) as [Hsucc|Hfail].
    + rewrite (placeBlock_success s cur top cb tb Hcur He Hpl Hcb Htop Htb Hsucc).
      match goal with |- context [afterPush ?u] =>
        destruct (afterPush_effect u)
          as (_ & _ & _ & _ & _ & _ & Ep & Esc & _ & Enone);
        destruct (Enone Hel) as (_ & Espeed & Et & Ee)
      end.
      unfold stuck. rewrite Ee, Et, Espeed, Esc, Ep. cbn.
      rewrite Hs0. repeat split; try assumption. right. split; reflexivity.
    + rewrite (placeBlock_failure s cur top cb tb Hcur He Hpl Hcb Htop Htb Hfail).
      rewrite bind_play.
      match goal with |- context [endGame ?u] =>
        destruct (endGame_effect u)
          as (_ & _ & _ & _ & _ & _ & _ & Ep & Esc & Espeed & Et & Ee)
      end.
      unfold stuck. rewrite Ee, Et, Espeed, Esc, Ep. cbn.
      repeat split; try assumption. left. exact Hs0.
  - rewrite bind_get, Hpend. exact St.
  - destruct (endGame_effect s)
      as (_ & _ & _ & _ & _ & _ & _ & Ep & Esc & Espeed & Et & Ee).
    unfold stuck. rewrite Ee, Et, Espeed, Esc, Ep. exact St.
Qed.

(** X14.  In a page without the [score] element, [updateScore] throws in the
    middle of the first successful placement: in every state reached from
    [init] the score is at most 1, the speed is still [INITIAL_SPEED], no
    spawn timer is ever scheduled, and once a block has been placed
    [isPlacingBlock] stays set, so that no further block can be placed. *)
Theorem missing_score_element (gameOverE : option bool)
    (finalScoreE : option Text) (now : Q) (evs : list Event) :
  let s := run evs (boot None gameOverE finalScoreE now) in
  pendingSpawns s = 0%nat /\
  speed s = CONFIG.INITIAL_SPEED /\
  (score s = 0%Z \/ (score s = 1%Z /\ isPlacingBlock s = true)).
Proof.
  intros s.
  assert (H : Tower s /\ stuck s).
  { subst s. generalize (Tower_boot None gameOverE finalScoreE now).
    assert (H0 : stuck (boot None gameOverE finalScoreE now))
      by (repeat split; left; reflexivity).
    revert H0. generalize (boot None gameOverE finalScoreE now).
    induction evs as [|ev evs IH]; intros u Hs Ht; [split; assumption|].
    cbn. apply IH; [apply stuck_step; assumption|apply Tower_step; exact Ht]. }
  destruct H as [_ (_ & H)]. exact H.
Qed.

(** * Falling pieces ([animateFallingPiece]) *)




(** * A placement and the spawn that follows *)

Lemma afterPush_run (s : GameState) (t : Text) :
  scoreEl s = Some t ->
  afterPush s =
    (Normal tt,
     set_pendingSpawns (S (pendingSpawns s))
       (set_speed (speed s + CONFIG.SPEED_INCREASE)
          (set_soundLog (snd_drop :: soundLog s)
             (set_scoreEl (Some (Bloques (score s + 1)))
                (set_score (score s + 1)%Z s))))).
Proof.
  intros H. unfold afterPush, updateScore, increaseDifficulty. js_unfold.
  js_simpl. rewrite H. reflexivity.
Qed.

(** A click that places the block, and the spawn timer that follows. *)
Lemma click_run (s : GameState) (cur prev : ref) (cb pb : Block) :
  currentBlock s = Some cur ->
  gameEnded s = false ->
  isPlacingBlock s = false ->
  blocks s !! cur = Some cb ->
  lastOf (stack s) = Some prev ->
  blocks s !! prev = Some pb ->
  Qabs (position_x (mesh cb) - position_x (mesh pb)) < width cb ->
  step (Input mousedown) s =
    (afterPush
       (set_stack (stack s ++ [cur])
          (set_drops (debris cb pb :: drops s)
             (set_blocks (<[cur := kept cb pb]> (blocks s))
                (set_isPlacingBlock true s))))).2.
Proof.
  intros Hcur Hend Hpl Hcb Hprev Hpb Hok.
  unfold step. cbn [dispatch]. rewrite handleInput_run. cbn [accepted].
  rewrite (placeBlock_success s cur prev cb pb Hcur Hend Hpl Hcb Hprev Hpb Hok).
  reflexivity.
Qed.

Lemma spawn_run (u : GameState) (n : nat) (top : ref) (tb : Block) :
  pendingSpawns u = S n ->
  gameEnded u = false ->
  lastOf (stack u) = Some top ->
  blocks u !! top = Some tb ->
  step Timeout u =
    set_isPlacingBlock false
      (set_currentBlock (Some (length (blocks u)))
         (set_blocks (blocks u ++ [spawned tb (len (stack u))])
            (set_pendingSpawns n u))).
Proof.
  intros Hn He Htop Htb.
  unfold step. cbn [dispatch]. rewrite bind_get, Hn, bind_modify.
  unfold spawnCallback. rewrite bind_get.
  cbn [gameEnded set_pendingSpawns]. rewrite He. unfold bind at 1.
  rewrite (addNewMovingBlock_run (set_pendingSpawns n u) top tb Htop Htb).
  reflexivity.
Qed.

(** X16.  A successful placement followed by the spawn timer: the new
    current block is a fresh moving block at [x = -BOUNDS], one level
    higher, exactly as wide as what was kept of the placed block; the placed
    block is on top of the stack, the score has gone up by one, placement is
    possible again and the timer queue is as before. *)
Theorem placement_then_spawn (s : GameState) (cur prev : ref) (cb pb : Block) :
  currentBlock s = Some cur ->
  gameEnded s = false ->
  isPlacingBlock s = false ->
  blocks s !! cur = Some cb ->
  lastOf (stack s) = Some prev ->
  blocks s !! prev = Some pb ->
  scoreEl s <> None ->
  Qabs (position_x (mesh cb) - position_x (mesh pb)) < width cb ->
  let s2 := run [Input mousedown; Timeout] s in
  exists nb,
    currentBlock s2 = Some (length (blocks s)) /\
    blocks s2 !! length (blocks s) = Some nb /\
    moving nb = true /\
    width nb = width cb - Qabs (position_x (mesh cb) - position_x (mesh pb)) /\
    depth nb = depth cb /\
    position_x (mesh nb) = - CONFIG.BOUNDS /\
    position_y (mesh nb) = len (stack s ++ [cur]) * CONFIG.BOX_HEIGHT /\
    stack s2 = stack s ++ [cur] /\
    score s2 = (score s + 1)%Z /\
    isPlacingBlock s2 = false /\
    pendingSpawns s2 = pendingSpawns s.
Proof.
  intros Hcur Hend Hpl Hcb Hprev Hpb Hel Hok s2. subst s2.
  destruct (scoreEl s) as [t|] eqn:Ht; [clear Hel|contradiction].
  assert (Hlt : (cur < length (blocks s))%nat) by (eapply lookup_lt_Some; exact Hcb).
  cbn [run foldl].
  rewrite (click_run s cur prev cb pb Hcur Hend Hpl Hcb Hprev Hpb Hok).
  erewrite afterPush_run by exact Ht. cbn [snd].
  erewrite (spawn_run _ (pendingSpawns s) cur (kept cb pb));
    [|reflexivity|exact Hend|apply lastOf_snoc
     |apply list_lookup_insert_eq; exact Hlt].
  cbn [currentBlock blocks stack score isPlacingBlock pendingSpawns
       set_isPlacingBlock set_currentBlock set_blocks set_pendingSpawns
       set_speed set_soundLog set_scoreEl set_score set_stack set_drops].
  rewrite length_insert.
  exists (spawned (kept cb pb) (len (stack s ++ [cur]))).
  split; [reflexivity|]. split.
  { rewrite lookup_app_r by (rewrite length_insert; lia).
    rewrite length_insert, Nat.sub_diag. reflexivity. }
  repeat split.
Qed.

Lemma placement_then_spawn_witness :
  exists nb,
    currentBlock (run [Input mousedown; Timeout] (scenario 2)) = Some 2%nat /\
    blocks (run [Input mousedown; Timeout] (scenario 2)) !! 2%nat = Some nb /\
    moving nb = true /\
    width nb = 3 - Qabs (2 - 0) /\
    depth nb = 3 /\
    position_x (mesh nb) = - CONFIG.BOUNDS /\
    position_y (mesh nb) = len [0%nat; 1%nat] * CONFIG.BOX_HEIGHT /\
    stack (run [Input mousedown; Timeout] (scenario 2)) = [0%nat; 1%nat] /\
    score (run [Input mousedown; Timeout] (scenario 2)) = (0 + 1)%Z /\
    isPlacingBlock (run [Input mousedown; Timeout] (scenario 2)) = false /\
    pendingSpawns (run [Input mousedown; Timeout] (scenario 2)) = 0%nat.
Proof.
  exact (placement_then_spawn (scenario 2) 1%nat 0%nat _ _
           eq_refl eq_refl eq_refl eq_refl eq_refl eq_refl
           ltac:(discriminate) eq_refl).
Defined.

(** X17.  On an empty stack: [addNewMovingBlock] throws and changes nothing;
    [placeBlock], when its guard lets it in, throws only after it has set
    [isPlacingBlock] and cleared the [moving] flag of the current block, so
    that later inputs are ignored; [updateCamera] does nothing. *)
Theorem empty_stack_behaviour (s : GameState) (cur : ref) (cb : Block) (dt : Q) :
  stack s = [] ->
  currentBlock s = Some cur ->
  blocks s !! cur = Some cb ->
  gameEnded s = false ->
  isPlacingBlock s = false ->
  addNewMovingBlock s = (TypeError, s) /\
  placeBlock s =
    (TypeError,
     set_blocks (<[cur := set_moving false cb]> (blocks s))
       (set_isPlacingBlock true s)) /\
  (forall e, handleInput e (placeBlock s).2 = (Normal tt, (placeBlock s).2)) /\
  updateCamera dt s = (Normal tt, s).
Proof.
  intros Hst Hcur Hcb Hend Hpl.
  assert (Hp : placeBlock s =
                 (TypeError,
                  set_blocks (<[cur := set_moving false cb]> (blocks s))
                    (set_isPlacingBlock true s))).
  { apply (placeBlock_no_prev s cur cb Hcur Hend Hpl Hcb).
    intros prev. rewrite Hst. discriminate. }
  split; [apply addNewMovingBlock_empty; exact Hst|].
  split; [exact Hp|]. split.
  - intros e. rewrite Hp. cbn [snd]. rewrite handleInput_run.
    destruct (accepted e); [|reflexivity].
    apply placeBlock_disabled. unfold placeBlock_enabled. cbn.
    destruct (currentBlock s); [apply andb_false_r|reflexivity].
  - unfold updateCamera. js_unfold. rewrite Hst. reflexivity.
Qed.

Lemma empty_stack_behaviour_witness :
  addNewMovingBlock (set_stack [] (scenario 0)) = (TypeError, set_stack [] (scenario 0)) /\
  placeBlock (set_stack [] (scenario 0)) =
    (TypeError,
     set_blocks (<[1%nat := set_moving false (mkBlock (mkMesh 3 3 0 0.5 1) 3 3 true)]>
                   (blocks (set_stack [] (scenario 0))))
       (set_isPlacingBlock true (set_stack [] (scenario 0)))) /\
  (forall e, handleInput e (placeBlock (set_stack [] (scenario 0))).2
             = (Normal tt, (placeBlock (set_stack [] (scenario 0))).2)) /\
  updateCamera 1 (set_stack [] (scenario 0)) = (Normal tt, set_stack [] (scenario 0)).
Proof.
  exact (empty_stack_behaviour (set_stack [] (scenario 0)) 1%nat _ 1
           eq_refl eq_refl eq_refl eq_refl eq_refl).
Defined.

